(** * Quax / PsiJax: one-electron integral operators and the RHF solver

    A shallow embedding of
    - [psijax/external_integrals/oei.py]: the JAX primitives for the overlap,
      kinetic and potential integrals, their derivative look-up in the
      [oei_derivs.h5] store, their JVP rules and their batching rules;
    - [psijax/methods/energy_utils.py]: [nuclear_repulsion], the two
      orthogonalizations, the transformations of the two-electron tensor and
      [cartesian_product];
    - [quax/methods/hartree_fock.py]: [restricted_hartree_fock] and its
      inner [rhf_iter].

    Conventions.  Python integers are [int]; Python exceptions are the
    constructors of [exn] and a call that may raise returns a [result];
    float64 scalars of the SCF solver are idealised as the elements of a real
    closed field (no rounding, no NaN); the numerical routines of
    [jax.numpy.linalg] and the native integral library are parameters.  The
    [while] of the solver is also given on scalars that may be NaN, where a
    comparison with NaN is false. *)

From HB Require Import structures.
From mathcomp Require Import boot order algebra.
From mathcomp Require Import algC.
From Stdlib Require Import String DecimalString.
From Stdlib Require DecimalNat DecimalFacts.

Set Implicit Arguments.
Unset Strict Implicit.
Unset Printing Implicit Defensive.

Import Order.Theory GRing.Theory Num.Theory.
Local Open Scope ring_scope.

(** ** Python exceptions and results *)

(** The exception classes the modelled code can raise.
    [MissingDerivativeDataError] is the class the specification names for a
    missing dataset; it is listed so that statements about it can be written,
    and no definition of this file raises it. *)
Inductive exn : Type :=
  | KeyError of string
  | IndexError
  | ValueError
  | TypeError
  | OSError
  | UnboundLocalError
  | ZeroDivisionError
  | MissingDerivativeDataError.

Inductive result (A : Type) : Type :=
  | Ok of A
  | Raise of exn.

Arguments Ok {A} _.
Arguments Raise {A} _.

Definition rbind (A B : Type) (c : result A) (k : A -> result B) : result B :=
  match c with
  | Ok a => k a
  | Raise e => Raise e
  end.

Notation "x <- c ;; k" := (rbind c (fun x => k))
  (at level 100, c at next level, right associativity).

Definition is_ok (A : Type) (c : result A) : bool :=
  if c is Ok _ then true else false.

(** ** n-dimensional arrays, as numpy lays them out *)

Section NdArray.

Variable F : Type.

(** A numpy array: its shape and its cells in row-major (C) order. *)
Record ndarray : Type := NdArray { shape : seq nat; data : seq F }.

Definition numel (sh : seq nat) : nat := foldr muln 1%N sh.

Definition well_shaped (a : ndarray) : bool :=
  size (data a) == numel (shape a).

(** [a.reshape(sh)]: the cells are kept, the count has to agree. *)
Definition reshape_nd (a : ndarray) (sh : seq nat) : result ndarray :=
  if numel sh == size (data a) then Ok (NdArray sh (data a))
  else Raise ValueError.

(** [jnp.expand_dims(a, axis=0)] *)
Definition expand_dims0 (a : ndarray) : ndarray :=
  NdArray (1%N :: shape a) (data a).

(** [jnp.concatenate(arrs, axis=0)]: an empty list is refused, and so are
    zero-dimensional arrays and arrays whose trailing dimensions differ. *)
Definition concatenate0 (arrs : seq ndarray) : result ndarray :=
  if arrs is a :: rest then
    if shape a is _ :: tl then
      if all (fun b => (size (shape b) != 0%N) && (behead (shape b) == tl)) rest
      then Ok (NdArray (sumn [seq head 0%N (shape b) | b <- arrs] :: tl)
                       (flatten [seq data b | b <- arrs]))
      else Raise TypeError
    else Raise ValueError
  else Raise ValueError.

(** [a[i]]: the [i]-th slice along the leading axis. *)
Definition getitem0 (a : ndarray) (i : nat) : ndarray :=
  let sh := behead (shape a) in
  NdArray sh (take (numel sh) (drop (i * numel sh) (data a))).

End NdArray.

Arguments NdArray {F} _ _.

(** ** [oei.py]: the integral primitives *)

(** [str(n)] for a Python integer. *)
Definition str_int (z : int) : string :=
  match z with
  | Posz n => NilZero.string_of_uint (Nat.to_uint n)
  | Negz n => String.append "-" (NilZero.string_of_uint (Nat.to_uint n.+1))
  end.

(** [np.sum] of an integer vector, on unbounded integers: the int64 sum of
    numpy agrees with it below [2^63]. *)
Definition np_sum (v : seq int) : int := foldr +%R 0 v.

(** [u + t] on one-dimensional arrays, with numpy's broadcasting: equal
    lengths add cell by cell, a length-one operand is stretched, any other
    pair of lengths is refused. *)
Definition vec_add (u t : seq int) : result (seq int) :=
  if size u == size t then Ok [seq x.1 + x.2 | x <- zip u t]
  else if size u == 1%N then Ok [seq head 0 u + y | y <- t]
  else if size t == 1%N then Ok [seq x + head 0 t | x <- u]
  else Raise TypeError.

Section Oei.

(** The type of the float64 cells.  No arithmetic is done on them here. *)
Variable F : Type.

(** A flattened geometry, and a derivative vector. *)
Definition geometry : Type := seq F.
Definition deriv_vec : Type := seq int.

(** The session of the native integral library ([libint_interface]): what
    its [overlap()], [kinetic()] and [potential()] return, flat. *)
Record libint_session : Type := LibintSession {
  libint_overlap : seq F;
  libint_kinetic : seq F;
  libint_potential : seq F
}.

(** A dataset of the derivative store: a three-dimensional array, given by
    its shape and its cell reader. *)
Record dataset : Type := Dataset {
  ds_shape : nat * nat * nat;
  ds_cell : nat -> nat -> nat -> F
}.

(** An HDF5 file: its named datasets. *)
Definition h5file : Type := seq (string * dataset).

Fixpoint h5_lookup (f : h5file) (name : string) : option dataset :=
  if f is (k, d) :: f' then
    if String.eqb k name then Some d else h5_lookup f' name
  else None.

(** [f[name]] *)
Definition h5_getitem (f : h5file) (name : string) : result dataset :=
  if h5_lookup f name is Some d then Ok d else Raise (KeyError name).

(** [h5py.File('oei_derivs.h5', 'r')]: [None] stands for a missing file. *)
Definition h5_open (disk : option h5file) : result h5file :=
  if disk is Some f then Ok f else Raise OSError.

(** [data_set[:, :, idx]]: a negative index counts from the end; an index
    outside the third axis is refused. *)
Definition h5_slice (d : dataset) (idx : int) : result (ndarray F) :=
  let: (a, b, c) := ds_shape d in
  let read (k : nat) :=
    Ok (NdArray [:: a; b]
          [seq ds_cell d i j k | i <- iota 0 a, j <- iota 0 b]) in
  match idx with
  | Posz k => if (k < c)%N then read k else Raise IndexError
  | Negz k => if (k < c)%N then read (c - k.+1)%N else Raise IndexError
  end.

(** The environment of the module: the library session, the index mapper
    [utils.get_deriv_vec_idx] (not part of these sources) and the content of
    [oei_derivs.h5]. *)
Variable session : libint_session.
Variable get_deriv_vec_idx : deriv_vec -> result int.
Variable disk : option h5file.

(** [int(np.sqrt(S.shape[0]))] followed by [S.reshape(d, d)]. *)
Definition square_reshape (flat : seq F) : result (ndarray F) :=
  let S := NdArray [:: size flat] flat in
  let d := Nat.sqrt (head 0%N (shape S)) in
  reshape_nd S [:: d; d].

Definition overlap_impl (geom : geometry) : result (ndarray F) :=
  square_reshape (libint_overlap session).

Definition kinetic_impl (geom : geometry) : result (ndarray F) :=
  square_reshape (libint_kinetic session).

Definition potential_impl (geom : geometry) : result (ndarray F) :=
  square_reshape (libint_potential session).

Definition overlap_deriv_impl (geom : geometry) (deriv_vec : deriv_vec)
  : result (ndarray F) :=
  let deriv_order := np_sum deriv_vec in
  idx <- get_deriv_vec_idx deriv_vec ;;
  let dataset_name := String.append "overlap_deriv" (str_int deriv_order) in
  f <- h5_open disk ;;
  data_set <- h5_getitem f dataset_name ;;
  h5_slice data_set idx.

Definition kinetic_deriv_impl (geom : geometry) (deriv_vec : deriv_vec)
  : result (ndarray F) :=
  let deriv_order := np_sum deriv_vec in
  idx <- get_deriv_vec_idx deriv_vec ;;
  let dataset_name := String.append "kinetic_deriv" (str_int deriv_order) in
  f <- h5_open disk ;;
  data_set <- h5_getitem f dataset_name ;;
  h5_slice data_set idx.

Definition potential_deriv_impl (geom : geometry) (deriv_vec : deriv_vec)
  : result (ndarray F) :=
  let deriv_order := np_sum deriv_vec in
  idx <- get_deriv_vec_idx deriv_vec ;;
  let dataset_name := String.append "potential_deriv" (str_int deriv_order) in
  f <- h5_open disk ;;
  data_set <- h5_getitem f dataset_name ;;
  h5_slice data_set idx.

(** The functions that call the primitives.  [p.bind(args)] evaluates the
    rule registered with [p.def_impl]. *)
Definition overlap (geom : geometry) := overlap_impl geom.
Definition overlap_deriv (geom : geometry) (dv : deriv_vec) :=
  overlap_deriv_impl geom dv.
Definition kinetic (geom : geometry) := kinetic_impl geom.
Definition kinetic_deriv (geom : geometry) (dv : deriv_vec) :=
  kinetic_deriv_impl geom dv.
Definition potential (geom : geometry) := potential_impl geom.
Definition potential_deriv (geom : geometry) (dv : deriv_vec) :=
  potential_deriv_impl geom dv.

(** *** JVP rules.  [primals] is the tuple of the arguments, [tangents] the
    tuple of their tangents; [tangents[0]] is the tangent of the geometry. *)

Definition overlap_jvp (primals : geometry) (tangents : deriv_vec)
  : result (ndarray F * ndarray F) :=
  let geom := primals in
  primals_out <- overlap geom ;;
  tangents_out <- overlap_deriv geom tangents ;;
  Ok (primals_out, tangents_out).

Definition overlap_deriv_jvp (primals : geometry * deriv_vec)
    (tangents : deriv_vec * deriv_vec) : result (ndarray F * ndarray F) :=
  let: (geom, deriv_vec) := primals in
  primals_out <- overlap_deriv geom deriv_vec ;;
  shifted <- vec_add deriv_vec tangents.1 ;;
  tangents_out <- overlap_deriv geom shifted ;;
  Ok (primals_out, tangents_out).

Definition kinetic_jvp (primals : geometry) (tangents : deriv_vec)
  : result (ndarray F * ndarray F) :=
  let geom := primals in
  primals_out <- kinetic geom ;;
  tangents_out <- kinetic_deriv geom tangents ;;
  Ok (primals_out, tangents_out).

Definition kinetic_deriv_jvp (primals : geometry * deriv_vec)
    (tangents : deriv_vec * deriv_vec) : result (ndarray F * ndarray F) :=
  let: (geom, deriv_vec) := primals in
  primals_out <- kinetic_deriv geom deriv_vec ;;
  shifted <- vec_add deriv_vec tangents.1 ;;
  tangents_out <- kinetic_deriv geom shifted ;;
  Ok (primals_out, tangents_out).

Definition potential_jvp (primals : geometry) (tangents : deriv_vec)
  : result (ndarray F * ndarray F) :=
  let geom := primals in
  primals_out <- potential geom ;;
  tangents_out <- potential_deriv geom tangents ;;
  Ok (primals_out, tangents_out).

Definition potential_deriv_jvp (primals : geometry * deriv_vec)
    (tangents : deriv_vec * deriv_vec) : result (ndarray F * ndarray F) :=
  let: (geom, deriv_vec) := primals in
  primals_out <- potential_deriv geom deriv_vec ;;
  shifted <- vec_add deriv_vec tangents.1 ;;
  tangents_out <- potential_deriv geom shifted ;;
  Ok (primals_out, tangents_out).

(** *** Batching rules *)

(** The loop [for i in deriv_batch: tmp = deriv(geom, i);
    results.append(jnp.expand_dims(tmp, axis=0))]. *)
Fixpoint batch_loop (deriv : deriv_vec -> result (ndarray F))
    (rows : seq deriv_vec) (results : seq (ndarray F))
  : result (seq (ndarray F)) :=
  if rows is i :: rows' then
    tmp <- deriv i ;;
    batch_loop deriv rows' (rcons results (expand_dims0 tmp))
  else Ok results.

Definition overlap_deriv_batch (batched_args : geometry * seq deriv_vec)
    (batch_dims : option nat * option nat) : result (ndarray F * nat) :=
  let: (geom_batch, deriv_batch) := batched_args in
  let: (geom_dim, deriv_dim) := batch_dims in
  results <- batch_loop (overlap_deriv geom_batch) deriv_batch [::] ;;
  results <- concatenate0 results ;;
  Ok (results, 0%N).

Definition kinetic_deriv_batch (batched_args : geometry * seq deriv_vec)
    (batch_dims : option nat * option nat) : result (ndarray F * nat) :=
  let: (geom_batch, deriv_batch) := batched_args in
  let: (geom_dim, deriv_dim) := batch_dims in
  results <- batch_loop (kinetic_deriv geom_batch) deriv_batch [::] ;;
  results <- concatenate0 results ;;
  Ok (results, 0%N).

Definition potential_deriv_batch (batched_args : geometry * seq deriv_vec)
    (batch_dims : option nat * option nat) : result (ndarray F * nat) :=
  let: (geom_batch, deriv_batch) := batched_args in
  let: (geom_dim, deriv_dim) := batch_dims in
  results <- batch_loop (potential_deriv geom_batch) deriv_batch [::] ;;
  results <- concatenate0 results ;;
  Ok (results, 0%N).

End Oei.

(** ** [energy_utils.py] and [hartree_fock.py]: the RHF solver *)

(** The recognised options of the solver. *)
Record hf_options (R : Type) : Type := HfOptions {
  integral_algo : string;
  maxit : int;
  damping : bool;
  damp_factor : R;
  spectral_shift : bool
}.

Section HartreeFock.

(** The float64 scalars, idealised, and the number of basis functions. *)
Variable R : rcfType.
Variable nbf : nat.

(** The four-index two-electron tensor. *)
Definition tensor4 : Type := 'I_nbf -> 'I_nbf -> 'I_nbf -> 'I_nbf -> R.

(** What [compute_integrals] hands back. *)
Record integrals : Type := Integrals {
  int_S : 'M[R]_nbf;
  int_T : 'M[R]_nbf;
  int_V : 'M[R]_nbf;
  int_G : tensor4
}.

(** The routines the solver takes from outside these sources:
    [jnp.linalg.cholesky], [jnp.linalg.inv], [jnp.linalg.eigh],
    [jnp.round(_, 6)] on one cell, and [compute_integrals] of the sibling
    module [ints]. *)
Variable linalg_cholesky : 'M[R]_nbf -> 'M[R]_nbf.
Variable linalg_inv : 'M[R]_nbf -> 'M[R]_nbf.
Variable linalg_eigh : 'M[R]_nbf -> 'rV[R]_nbf * 'M[R]_nbf.
Variable round6 : R -> R.
Variable compute_integrals :
  seq R -> string -> string -> seq int -> int -> nat -> hf_options R ->
  result integrals.

(** *** [energy_utils.py] *)

(** [geom.reshape(-1, 3)] *)
Definition reshape_rows3 (geom : seq R) : result (seq (seq R)) :=
  if (size geom %% 3 == 0)%N
  then Ok (reshape (nseq (size geom %/ 3) 3%N) geom)
  else Raise TypeError.

(** [geom[i]] on the rows of a geometry.  An index past the last row is
    refused, as on a numpy array; a jax array clamps it.  The statements
    below read the rows that exist. *)
Definition row_get (geom : seq (seq R)) (i : nat) : result (seq R) :=
  if (i < size geom)%N then Ok (nth [::] geom i) else Raise IndexError.

(** [jnp.linalg.norm(x - y)] on two rows. *)
Definition norm_diff (x y : seq R) : R :=
  Num.sqrt (foldr +%R 0 [seq (p.1 - p.2) ^+ 2 | p <- zip x y]).

Fixpoint nuclear_repulsion_inner (geom : seq (seq R))
    (nuclear_charges : seq int) (i : nat) (js : seq nat) (nuc : R)
  : result R :=
  if js is j :: js' then
    gi <- row_get geom i ;;
    gj <- row_get geom j ;;
    nuclear_repulsion_inner geom nuclear_charges i js'
      (nuc + (nth 0 nuclear_charges i)%:~R * (nth 0 nuclear_charges j)%:~R
             / norm_diff gi gj)
  else Ok nuc.

Fixpoint nuclear_repulsion_outer (geom : seq (seq R))
    (nuclear_charges : seq int) (rows : seq nat) (nuc : R) : result R :=
  if rows is i :: rows' then
    nuc' <- nuclear_repulsion_inner geom nuclear_charges i (iota 0 i) nuc ;;
    nuclear_repulsion_outer geom nuclear_charges rows' nuc'
  else Ok nuc.

Definition nuclear_repulsion (geom : seq (seq R)) (nuclear_charges : seq int)
  : result R :=
  let natom := size nuclear_charges in
  nuclear_repulsion_outer geom nuclear_charges (iota 0 natom) 0.

Definition cholesky_orthogonalization (S : 'M[R]_nbf) : 'M[R]_nbf :=
  (linalg_inv (linalg_cholesky S))^T.

(** *** [hartree_fock.py] *)

(** The inner [tensordot(x, y, axes=[(0, 1), (0, 1)])] under the two [vmap]s:
    cell [(p, q)] contracts [G[p, q, :, :]] with [D]. *)
Definition jk_build (G : tensor4) (D : 'M[R]_nbf) : 'M[R]_nbf :=
  \matrix_(p, q) (\sum_r \sum_s G p q r s * D r s).

(** [G.transpose((0, 2, 1, 3))] *)
Definition transpose_0213 (G : tensor4) : tensor4 :=
  fun p q r s => G p r q s.

(** [jnp.einsum("pq,pq->", X, Y)] *)
Definition einsum_pq_pq (X Y : 'M[R]_nbf) : R :=
  \sum_p \sum_q X p q * Y p q.

(** [jnp.mean(X ** 2) ** 0.5] *)
Definition root_mean_square (X : 'M[R]_nbf) : R :=
  Num.sqrt ((\sum_i \sum_j X i j ^+ 2) / (nbf * nbf)%:R).

(** The stop of the slice [:k] on an axis of length [n]. *)
Definition slice_stop (n : nat) (k : int) : nat :=
  match k with
  | Posz m => minn m n
  | Negz m => (n - m.+1)%N
  end.

Definition slice_stop_le (n : nat) (k : int) : (slice_stop n k <= n)%N :=
  match k with
  | Posz m => geq_minr m n
  | Negz m => leq_subr m.+1 n
  end.

(** [C[:, :k]] *)
Definition columns_upto (k : int) (C : 'M[R]_nbf)
  : 'M[R]_(nbf, slice_stop nbf k) :=
  \matrix_(i, j) C i (widen_ord (slice_stop_le nbf k) j).

(** [np.linspace(0, 1, nbf)] at position [i]. *)
Definition linspace01 (i : nat) : R := i%:R / (nbf.-1)%:R.

(** The threshold: [1e-10], relaxed to [1e-8] under the spectral shift. *)
Definition hf_convergence (spectral_shift : bool) : R :=
  if spectral_shift then 10%:R ^- 8 else 10%:R ^- 10.

(** The diagonal shift added to the transformed Fock matrix. *)
Definition hf_shift (spectral_shift : bool) : 'M[R]_nbf :=
  if spectral_shift
  then diag_mx (\row_i (linspace01 i * hf_convergence true))
  else 0.

(** The names bound before the loop and read inside it. *)
Record scf_env : Type := ScfEnv {
  env_S : 'M[R]_nbf;
  env_G : tensor4;
  env_H : 'M[R]_nbf;
  env_A : 'M[R]_nbf;
  env_shift : 'M[R]_nbf;
  env_Enuc : R;
  env_ndocc : int;
  env_convergence : R
}.

(** The names the loop rebinds.  [C] and [eps] are unbound until [rhf_iter]
    has run once. *)
Record scf_vars : Type := ScfVars {
  iteration : nat;
  E_scf : R;
  E_old : R;
  D : 'M[R]_nbf;
  Dold : 'M[R]_nbf;
  dRMS : R;
  C_eps : option ('M[R]_nbf * 'rV[R]_nbf)
}.

Section Loop.

Variable options : hf_options R.
Variable env : scf_env.

(** The closure [rhf_iter(F, D)]. *)
Definition rhf_iter (F D : 'M[R]_nbf)
  : R * 'M[R]_nbf * 'M[R]_nbf * 'rV[R]_nbf :=
  let E_scf := einsum_pq_pq (F + env_H env) D in
  let Fp := (env_A env)^T *m (F *m env_A env) in
  let Fp := Fp + env_shift env in
  let: (eps, C2) := linalg_eigh Fp in
  let C := env_A env *m C2 in
  let Cocc := columns_upto (env_ndocc env) C in
  let D := Cocc *m Cocc^T in
  (E_scf, D, C, eps).

(** The test of the [while], on numbers.  [loop_test_f64] below is the test
    on scalars that may be NaN; the two agree on numbers. *)
Definition loop_test (v : scf_vars) : bool :=
  (env_convergence env < `|E_scf v - E_old v|)
  || (env_convergence env < dRMS v).

(** The damping block: the density handed to the JK build, and [Dold]. *)
Definition damp_density (v : scf_vars) : 'M[R]_nbf * 'M[R]_nbf :=
  if damping options then
    if (iteration v < 10)%N then
      let D := damp_factor options *: Dold v + damp_factor options *: D v in
      (D, 1 *: D)
    else (D v, Dold v)
  else (D v, Dold v).

(** [F = H + JK] with [JK = 2 * jk_build(G, D) - jk_build(G.transpose, D)]. *)
Definition build_fock (D : 'M[R]_nbf) : 'M[R]_nbf :=
  let JK := 2%:R *: jk_build (env_G env) D in
  let JK := JK - jk_build (transpose_0213 (env_G env)) D in
  env_H env + JK.

(** [diis_e], after both assignments. *)
Definition diis_error (F D : 'M[R]_nbf) : 'M[R]_nbf :=
  let diis_e := F *m D *m env_S env - env_S env *m D *m F in
  env_A env *m diis_e *m env_A env.

(** One pass through the body of the [while], up to the [break] test. *)
Definition scf_body (v : scf_vars) : scf_vars :=
  let E_old := E_scf v * 1 in
  let: (D, Dold) := damp_density v in
  let F := build_fock D in
  let dRMS :=
    if (1 < iteration v)%N then root_mean_square (diis_error F D)
    else dRMS v in
  let: (E_scf, D, C, eps) := rhf_iter F D in
  ScfVars (iteration v).+1 E_scf E_old D Dold dRMS (Some (C, eps)).

(** The [while] with its [break]; [None] when the fuel runs out first. *)
Fixpoint scf_loop (fuel : nat) (v : scf_vars) : option scf_vars :=
  if fuel is fuel'.+1 then
    if loop_test v then
      let v' := scf_body v in
      if (iteration v')%:Z == maxit options then Some v'
      else scf_loop fuel' v'
    else Some v
  else None.

End Loop.

(** What a call leaves behind: the printed iteration count, whether the
    degeneracy warning was printed, and the returned value. *)
Inductive hf_value : Type :=
  | Energy of R
  | EnergyAux of R & 'M[R]_nbf & 'rV[R]_nbf & tensor4.

Record hf_outcome : Type := HfOutcome {
  printed_iterations : nat;
  printed_warning : bool;
  returned : hf_value
}.

(** The statements before the loop. *)
Definition hf_setup (geom : seq R) (basis_name xyz_path : string)
    (nuclear_charges : seq int) (charge : int) (options : hf_options R)
    (deriv_order : nat) (dmguess : option 'M[R]_nbf)
  : result (scf_env * scf_vars) :=
  let nelectrons := np_sum nuclear_charges - charge in
  let ndocc := (nelectrons %/ 2)%Z in
  ints <- compute_integrals geom basis_name xyz_path nuclear_charges charge
            deriv_order options ;;
  let S := int_S ints in
  let T := int_T ints in
  let V := int_V ints in
  let G := int_G ints in
  let A := cholesky_orthogonalization S in
  let convergence := hf_convergence (spectral_shift options) in
  let shift := hf_shift (spectral_shift options) in
  let H := T + V in
  rows <- reshape_rows3 geom ;;
  Enuc <- nuclear_repulsion rows nuclear_charges ;;
  let D := if dmguess is Some D0 then D0 else 0 in
  Ok (ScfEnv S G H A shift Enuc ndocc convergence,
      ScfVars 0 1 0 D D 1 None).

(** The statements after the loop. *)
Definition hf_finish (return_aux_data : bool) (env : scf_env) (v : scf_vars)
  : result hf_outcome :=
  if C_eps v is Some (C, eps) then
    let tmp := [seq round6 (eps 0 j) | j <- enum 'I_nbf] in
    let ndegen_orbs := (size tmp - size (undup tmp))%N in
    if nbf == 0%N then Raise ZeroDivisionError
    else
      let warn := (20%:R / 100%:R < ndegen_orbs%:R / nbf%:R :> R) in
      Ok (HfOutcome (iteration v) warn
            (if return_aux_data then EnergyAux (E_scf v) C eps (env_G env)
             else Energy (E_scf v)))
  else Raise UnboundLocalError.

(** The whole call, [None] when the loop outlives the fuel. *)
Definition restricted_hartree_fock (fuel : nat) (geom : seq R)
    (basis_name xyz_path : string) (nuclear_charges : seq int) (charge : int)
    (options : hf_options R) (deriv_order : nat) (return_aux_data : bool)
    (dmguess : option 'M[R]_nbf) : option (result hf_outcome) :=
  match hf_setup geom basis_name xyz_path nuclear_charges charge options
          deriv_order dmguess with
  | Raise e => Some (Raise e)
  | Ok (env, v0) =>
      omap (hf_finish return_aux_data env) (scf_loop options env fuel v0)
  end.

End HartreeFock.

(** ** The primitive registries of [oei.py]

    [def_impl], [jax.ad.primitive_jvps] and
    [jax.interpreters.batching.primitive_batchers] map each primitive to its
    rule; the three integral kinds index them here. *)

Inductive integral_kind : Type := Overlap | Kinetic | Potential.

Section Registries.

Variable F : Type.
Variable session : libint_session F.
Variable get_deriv_vec_idx : deriv_vec -> result int.
Variable disk : option (h5file F).

Definition eval_k (k : integral_kind) : geometry F -> result (ndarray F) :=
  match k with
  | Overlap => overlap session
  | Kinetic => kinetic session
  | Potential => potential session
  end.

Definition eval_k_deriv (k : integral_kind)
  : geometry F -> deriv_vec -> result (ndarray F) :=
  match k with
  | Overlap => overlap_deriv get_deriv_vec_idx disk
  | Kinetic => kinetic_deriv get_deriv_vec_idx disk
  | Potential => potential_deriv get_deriv_vec_idx disk
  end.

Definition primitive_jvps (k : integral_kind)
  : geometry F -> deriv_vec -> result (ndarray F * ndarray F) :=
  match k with
  | Overlap => overlap_jvp session get_deriv_vec_idx disk
  | Kinetic => kinetic_jvp session get_deriv_vec_idx disk
  | Potential => potential_jvp session get_deriv_vec_idx disk
  end.

Definition primitive_jvps_deriv (k : integral_kind)
  : geometry F * deriv_vec -> deriv_vec * deriv_vec ->
    result (ndarray F * ndarray F) :=
  match k with
  | Overlap => overlap_deriv_jvp get_deriv_vec_idx disk
  | Kinetic => kinetic_deriv_jvp get_deriv_vec_idx disk
  | Potential => potential_deriv_jvp get_deriv_vec_idx disk
  end.

Definition primitive_batchers (k : integral_kind)
  : geometry F * seq deriv_vec -> option nat * option nat ->
    result (ndarray F * nat) :=
  match k with
  | Overlap => overlap_deriv_batch get_deriv_vec_idx disk
  | Kinetic => kinetic_deriv_batch get_deriv_vec_idx disk
  | Potential => potential_deriv_batch get_deriv_vec_idx disk
  end.

(** The name of the dataset a derivative of order [n] is read from. *)
Definition dataset_name (k : integral_kind) (n : int) : string :=
  match k with
  | Overlap => String.append "overlap_deriv" (str_int n)
  | Kinetic => String.append "kinetic_deriv" (str_int n)
  | Potential => String.append "potential_deriv" (str_int n)
  end.

End Registries.

(** ** A small store, for the worked examples

    Two basis functions and two atoms: six Cartesian coordinates, hence six
    first and twenty-one second derivatives.  The first-order datasets are
    on disk, and the second-order one of the overlap. *)

Definition demo_cell (tag : nat) (i j k : nat) : nat :=
  (1000 * tag + 100 * i + 10 * j + k)%N.

Definition demo_store : h5file nat :=
  [:: ("overlap_deriv1"%string, Dataset (2, 2, 6)%N (demo_cell 1));
      ("overlap_deriv2"%string, Dataset (2, 2, 21)%N (demo_cell 4));
      ("kinetic_deriv1"%string, Dataset (2, 2, 6)%N (demo_cell 2));
      ("potential_deriv1"%string, Dataset (2, 2, 6)%N (demo_cell 3))].

(** The index mapper of the examples: the position of the first
    differentiated coordinate. *)
Definition demo_idx (v : deriv_vec) : result int :=
  Ok (Posz (find (fun x => x != 0) v)).

Definition demo_session : libint_session nat :=
  LibintSession [:: 1; 2; 3; 4]%N [:: 5; 6; 7; 8]%N [:: 9; 10; 11; 12]%N.

Definition demo_geom : geometry nat := [:: 0; 0; 0; 0; 0; 1]%N.

(** The derivative vector of one differentiation along coordinate [i]. *)
Definition unit_vec (n i : nat) : deriv_vec :=
  [seq Posz (j == i) | j <- iota 0 n].


(** ** A two-function system, for the worked examples

    Two hydrogen-like centres one bohr apart, two basis functions, one doubly
    occupied orbital, and a two-electron tensor that vanishes, so that the
    Fock matrix is the core Hamiltonian throughout. *)

Definition mx2 (R : Type) (a b c d : R) : 'M[R]_2 :=
  \matrix_(i, j) (if (i : nat) == 0%N then (if (j : nat) == 0%N then a else b)
                  else (if (j : nat) == 0%N then c else d)).

Definition rv2 (R : Type) (a b : R) : 'rV[R]_2 :=
  \row_j (if (j : nat) == 0%N then a else b).

Definition demo_S : 'M[algR]_2 := mx2 1 1 1 2.
Definition demo_T : 'M[algR]_2 := mx2 1 0 0 1.
Definition demo_V : 'M[algR]_2 := mx2 (-3) (-2) (-2) (-4).
Definition demo_H : 'M[algR]_2 := mx2 (-2) (-2) (-2) (-3).
Definition demo_L : 'M[algR]_2 := mx2 1 0 1 1.
Definition demo_A : 'M[algR]_2 := mx2 1 (-1) 0 1.
Definition demo_D : 'M[algR]_2 := mx2 1 0 0 0.
Definition demo_G : tensor4 algR 2 := fun _ _ _ _ => 0.

(** The Cholesky factor of a two-by-two matrix. *)
Definition cholesky2 (S : 'M[algR]_2) : 'M[algR]_2 :=
  let l00 := Num.sqrt (S 0 0) in
  let l10 := S 1 0 / l00 in
  mx2 l00 0 l10 (Num.sqrt (S 1 1 - l10 ^+ 2)).

(** [eigh] on a diagonal matrix whose diagonal does not decrease: the
    diagonal, and the identity. *)
Definition eigh_diagonal (M : 'M[algR]_2) : 'rV[algR]_2 * 'M[algR]_2 :=
  (\row_j M j j, 1%:M).

Definition demo_integrals (geom : seq algR) (basis_name xyz_path : string)
    (nuclear_charges : seq int) (charge : int) (deriv_order : nat)
    (options : hf_options algR) : result (integrals algR 2) :=
  Ok (Integrals demo_S demo_T demo_V demo_G).

Definition demo_options (maxit : int) : hf_options algR :=
  HfOptions "quax_core" maxit false (1 / 2%:R) false.

Definition demo_geometry : seq algR := [:: 0; 0; 0; 0; 0; 1].
Definition demo_charges : seq int := [:: 1; 1].

Definition demo_env : scf_env algR 2 :=
  ScfEnv demo_S demo_G demo_H demo_A 0 1 1 (10%:R ^- 10).

(** The names of the loop before the first pass, and after the second. *)
Definition demo_v0 : scf_vars algR 2 := ScfVars 0 1 0 0 0 1 None.

Definition demo_v2 : scf_vars algR 2 :=
  ScfVars 2 (- 4%:R) 0 demo_D 0 1 (Some (demo_A, rv2 (- 2%:R) (- 1))).

(** The names of the loop after the first and after the third pass. *)
Definition demo_v1 : scf_vars algR 2 :=
  ScfVars 1 0 1 demo_D 0 1 (Some (demo_A, rv2 (- 2%:R) (- 1))).

Definition demo_v3 : scf_vars algR 2 :=
  ScfVars 3 (- 4%:R) (- 4%:R) demo_D 0 0 (Some (demo_A, rv2 (- 2%:R) (- 1))).

(** The call of the worked examples. *)
Definition demo_hf (fuel : nat) (maxit : int) (return_aux_data : bool)
  : option (result (hf_outcome algR 2)) :=
  restricted_hartree_fock cholesky2 invmx eigh_diagonal id demo_integrals fuel
    demo_geometry "sto-3g" "geom.xyz" demo_charges 0 (demo_options maxit) 0
    return_aux_data None.

(** The residual as the specification words it, [A^T F D S - S D F A], to be
    compared with [diis_error]. *)
Definition diis_error_as_specified (R : rcfType) (nbf : nat)
    (env : scf_env R nbf) (F D : 'M[R]_nbf) : 'M[R]_nbf :=
  (env_A env)^T *m F *m D *m env_S env - env_S env *m D *m F *m env_A env.

(** The Frobenius inner product, as the trace of [X^T Y]. *)
Definition frobenius (R : rcfType) (nbf : nat) (X Y : 'M[R]_nbf) : R :=
  \tr (X^T *m Y).

(** ** The notions the statements below are worded with *)

(** A symmetric positive-definite matrix. *)
Definition spd (R : rcfType) (n : nat) (S : 'M[R]_n) : Prop :=
  S^T = S /\ forall v : 'rV[R]_n, v != 0 -> 0 < (v *m S *m v^T) 0 0.

(** [L] is the lower-triangular Cholesky factor of [S]. *)
Definition cholesky_factor (R : rcfType) (n : nat) (L S : 'M[R]_n) : Prop :=
  [/\ is_trig_mx L, forall i, 0 < L i i & L *m L^T = S].

(** Both convergence criteria hold. *)
Definition converged (R : rcfType) (nbf : nat) (env : scf_env R nbf)
    (v : scf_vars R nbf) : bool :=
  (`|E_scf v - E_old v| <= env_convergence env)
  && (dRMS v <= env_convergence env).

(** The loop started on [v0] is left once [k] passes are done: after a pass
    the count has reached [maxit], or both criteria hold. *)
Definition stops_after (R : rcfType) (nbf : nat)
    (linalg_eigh : 'M[R]_nbf -> 'rV[R]_nbf * 'M[R]_nbf)
    (options : hf_options R) (env : scf_env R nbf) (v0 : scf_vars R nbf)
    (k : nat) : bool :=
  let v := iter k (scf_body linalg_eigh options env) v0 in
  ((0 < k)%N && ((iteration v)%:Z == maxit options)) || converged env v.

(** The environment [env] with another nuclear repulsion energy. *)
Definition with_Enuc (R : rcfType) (nbf : nat) (env : scf_env R nbf) (e : R)
  : scf_env R nbf :=
  ScfEnv (env_S env) (env_G env) (env_H env) (env_A env) (env_shift env) e
    (env_ndocc env) (env_convergence env).

(** ** [oei.py] and [energy_utils.py]: the remaining functions *)

(** The flat output of the library for the integrals of kind [k]. *)
Definition libint_flat (F : Type) (s : libint_session F) (k : integral_kind)
  : seq F :=
  match k with
  | Overlap => libint_overlap s
  | Kinetic => libint_kinetic s
  | Potential => libint_potential s
  end.

Section EnergyUtils.

Variable R : rcfType.

(** A four-index array whose axes have the lengths [a], [b], [c], [d]. *)
Definition array4 (a b c d : nat) : Type :=
  'I_a -> 'I_b -> 'I_c -> 'I_d -> R.

(** [jnp.einsum('pqrs, pP, qQ, rR, sS -> PQRS', G, C, C, C, C)] *)
Definition old_tei_transformation (n m : nat) (G : array4 n n n n)
    (C : 'M[R]_(n, m)) : array4 m m m m :=
  fun P Q R0 S =>
    \sum_p \sum_q \sum_r \sum_s G p q r s * C p P * C q Q * C r R0 * C s S.

(** [jnp.tensordot(C, G, axes=(0,0))]: the first axis of [G] is contracted
    with the rows of [C], and the columns of [C] come first. *)
Definition tmp_transform (a b c d m : nat) (G : array4 a b c d)
    (C : 'M[R]_(a, m)) : array4 m b c d :=
  fun P q r s => \sum_p C p P * G p q r s.

(** [jnp.tensordot(C, G, axes=[(0,),(3,)])]: the last axis of [G] is
    contracted with the rows of [C], and the columns of [C] come first. *)
Definition transform (a b c d m : nat) (C : 'M[R]_(d, m)) (G : array4 a b c d)
  : array4 m a b c :=
  fun P p q r => \sum_s C s P * G p q r s.

Definition tei_transformation (n m : nat) (G : array4 n n n n)
    (C : 'M[R]_(n, m)) : array4 m m m m :=
  let G := transform C G in
  let G := transform C G in
  let G := transform C G in
  let G := transform C G in
  G.

(** [jnp.einsum('pqrs, pP, qQ, rR, sS -> PQRS', G, Ci, Cj, Ck, Cl)] *)
Definition partial_tei_transformation (n mi mj mk ml : nat)
    (G : array4 n n n n) (Ci : 'M[R]_(n, mi)) (Cj : 'M[R]_(n, mj))
    (Ck : 'M[R]_(n, mk)) (Cl : 'M[R]_(n, ml)) : array4 mi mj mk ml :=
  fun P Q R0 S =>
    \sum_p \sum_q \sum_r \sum_s
      G p q r s * Ci p P * Cj q Q * Ck r R0 * Cl s S.

(** [abs(eigval) > cutoff * jnp.max(abs(eigval))] with [cutoff = 1.0e-12]:
    the eigenvalues that pass the cut-off. *)
Definition above_cutoff (nbf : nat) (eigval : 'rV[R]_nbf) : pred 'I_nbf :=
  let cutoff := 10%:R ^- 12 in
  fun i => cutoff * \big[Num.max/0]_j `|eigval 0 j| < `|eigval 0 i|.

(** [symmetric_orthogonalization]: the columns of [eigvec] whose eigenvalue
    passes the cut-off are kept, in their order; [jnp.max] refuses an empty
    array. *)
Definition symmetric_orthogonalization (nbf : nat)
    (linalg_eigh : 'M[R]_nbf -> 'rV[R]_nbf * 'M[R]_nbf) (S : 'M[R]_nbf)
  : result 'M[R]_nbf :=
  let: (eigval, eigvec) := linalg_eigh S in
  if nbf == 0%N then Raise ValueError
  else
    let keep := above_cutoff eigval in
    let val : 'rV[R]_#|keep| :=
      \row_j (1 / Num.sqrt (eigval 0 (enum_val j))) in
    let vec : 'M[R]_(nbf, #|keep|) :=
      \matrix_(i, j) eigvec i (enum_val j) in
    Ok (vec *m diag_mx val *m vec^T).

(** One term of the nuclear repulsion energy. *)
Definition pair_repulsion (geom : seq (seq R)) (nuclear_charges : seq int)
    (i j : nat) : R :=
  (nth 0 nuclear_charges i)%:~R * (nth 0 nuclear_charges j)%:~R
  / norm_diff (nth [::] geom i) (nth [::] geom j).

(** The rows of a geometry moved by the vector [t]. *)
Definition translate (t : seq R) (geom : seq (seq R)) : seq (seq R) :=
  [seq [seq p.1 + p.2 | p <- zip row t] | row <- geom].

End EnergyUtils.

(** *** [cartesian_product] *)

Section CartesianProduct.

Variable F : Type.

(** [jnp.meshgrid] with [indexing='ij'] on one-dimensional arrays: one
    grid per array, all of the shape [(n1, ..., nk)]; the cell
    [(i1, ..., ik)] of grid [m] is [arrays[m][im]]. *)
Definition meshgrid_ij (arrays : seq (seq F)) : seq (ndarray F) :=
  let dims := [seq size a | a <- arrays] in
  [seq NdArray dims
         (flatten (nseq (numel (take m dims))
            (flatten [seq nseq (numel (drop m.+1 dims)) x
                     | x <- nth [::] arrays m])))
  | m <- iota 0 (size arrays)].

(** [jnp.asarray] of a list of arrays of one shape. *)
Definition asarray (arrs : seq (ndarray F)) : ndarray F :=
  NdArray (size arrs :: (if arrs is a :: _ then shape a else [::]))
          (flatten [seq data b | b <- arrs]).

(** [a.reshape(k, -1)]: the second length is inferred from the count of
    cells; a zero [k] leaves it undetermined and is refused. *)
Definition reshape_infer (a : ndarray F) (k : nat) : result (ndarray F) :=
  if (0 < k)%N && (size (data a) %% k == 0)%N
  then Ok (NdArray [:: k; (size (data a) %/ k)%N] (data a))
  else Raise TypeError.

(** The rows of a two-dimensional array of shape [(k, n)], and its columns:
    column [r] collects cell [r] of every row. *)
Definition rows_of (k n : nat) (cells : seq F) : seq (seq F) :=
  reshape (nseq k n) cells.

Definition columns_of (n : nat) (rows : seq (seq F)) : seq (seq F) :=
  foldr (fun row acc => [seq p.1 :: p.2 | p <- zip row acc]) (nseq n [::])
        rows.

(** [a.T] on a two-dimensional array; no array of another rank reaches it
    here. *)
Definition transpose_2d (a : ndarray F) : ndarray F :=
  if shape a is [:: k; n]
  then NdArray [:: n; k] (flatten (columns_of n (rows_of k n (data a))))
  else a.

(** [cartesian_product] called on at least one array, [a] being the first. *)
Definition cartesian_product (a : seq F) (rest : seq (seq F))
  : result (ndarray F) :=
  let arrays := a :: rest in
  tmp <- reshape_infer (asarray (meshgrid_ij arrays)) (size arrays) ;;
  Ok (transpose_2d tmp).

(** The tuples that take one cell from each array, the last array running
    fastest. *)
Definition lex_tuples (arrays : seq (seq F)) : seq (seq F) :=
  foldr (fun a acc => [seq x :: t | x <- a, t <- acc]) [:: [::]] arrays.

End CartesianProduct.

(** ** [hartree_fock.py]: what the statements on the outcome need *)

(** The energy carried by a returned value. *)
Definition hf_energy (R : rcfType) (nbf : nat) (r : hf_value R nbf) : R :=
  match r with
  | Energy E => E
  | EnergyAux E _ _ _ => E
  end.

(** The rows of [demo_geometry], and a diagonal overlap matrix. *)
Definition demo_rows : seq (seq algR) := [:: [:: 0; 0; 0]; [:: 0; 0; 1]].

Definition demo_diag : 'M[algR]_2 := mx2 1 0 0 4%:R.

(** ** The [while] of [restricted_hartree_fock] on scalars that may be NaN

    Above, float64 is idealised as a real closed field, in which every scalar
    is a number.  The test of the [while] also meets NaN
    ([jnp.linalg.cholesky] returns NaN on a matrix that is not positive
    definite, and NaN spreads through the passes), and a comparison with NaN
    is false.  Here the scalars the loop tests are numbers or NaN; the arrays
    the loop rebinds, and what a pass computes from them, are parameters. *)

Inductive f64 (R : Type) : Type :=
  | Num of R
  | NaN.

Arguments NaN {R}.

Section Float64Loop.

Variable R : rcfType.

Definition is_nan (x : f64 R) : bool := if x is NaN then true else false.

(** [x - y], [x * y] and [abs(x)]: NaN when an operand is. *)
Definition f64_sub (x y : f64 R) : f64 R :=
  match x, y with
  | Num a, Num b => Num (a - b)
  | _, _ => NaN
  end.

Definition f64_mul (x y : f64 R) : f64 R :=
  match x, y with
  | Num a, Num b => Num (a * b)
  | _, _ => NaN
  end.

Definition f64_abs (x : f64 R) : f64 R :=
  if x is Num a then Num `|a| else NaN.

(** [x > y] and [x <= y]: false when an operand is NaN. *)
Definition f64_gt (x y : f64 R) : bool :=
  match x, y with
  | Num a, Num b => b < a
  | _, _ => false
  end.

Definition f64_le (x y : f64 R) : bool :=
  match x, y with
  | Num a, Num b => a <= b
  | _, _ => false
  end.

(** The arrays the loop rebinds; what a pass computes from the counter and
    the arrays: the energy, the residual [jnp.mean(diis_e ** 2) ** 0.5] and
    the new arrays; the threshold; and the option [maxit]. *)
Variable arrays : Type.
Variable pass : nat -> arrays -> f64 R * f64 R * arrays.
Variable convergence : R.
Variable maxit : int.

Record scf_vars_f64 : Type := ScfVarsF64 {
  iteration_f64 : nat;
  E_scf_f64 : f64 R;
  E_old_f64 : f64 R;
  dRMS_f64 : f64 R;
  arrays_f64 : arrays
}.

(** The test of the [while]. *)
Definition loop_test_f64 (v : scf_vars_f64) : bool :=
  f64_gt (f64_abs (f64_sub (E_scf_f64 v) (E_old_f64 v))) (Num convergence)
  || f64_gt (dRMS_f64 v) (Num convergence).

(** One pass through the body of the [while], up to the [break] test: the
    residual replaces [dRMS] when the counter is above one. *)
Definition scf_body_f64 (v : scf_vars_f64) : scf_vars_f64 :=
  let E_old := f64_mul (E_scf_f64 v) (Num 1) in
  let: (E_scf, residual, a) := pass (iteration_f64 v) (arrays_f64 v) in
  let dRMS := if (1 < iteration_f64 v)%N then residual else dRMS_f64 v in
  ScfVarsF64 (iteration_f64 v).+1 E_scf E_old dRMS a.

(** The [while] with its [break]; [None] when the fuel runs out first. *)
Fixpoint scf_loop_f64 (fuel : nat) (v : scf_vars_f64) : option scf_vars_f64 :=
  if fuel is fuel'.+1 then
    if loop_test_f64 v then
      let v' := scf_body_f64 v in
      if (iteration_f64 v')%:Z == maxit then Some v'
      else scf_loop_f64 fuel' v'
    else Some v
  else None.

(** Both convergence criteria hold. *)
Definition converged_f64 (v : scf_vars_f64) : bool :=
  f64_le (f64_abs (f64_sub (E_scf_f64 v) (E_old_f64 v))) (Num convergence)
  && f64_le (dRMS_f64 v) (Num convergence).

(** One of the scalars the test reads is NaN. *)
Definition has_nan (v : scf_vars_f64) : bool :=
  [|| is_nan (E_scf_f64 v), is_nan (E_old_f64 v) | is_nan (dRMS_f64 v)].

(** The loop started on [v0] is left once [k] passes are done: after a pass
    the count has reached [maxit], or the test of the [while] is false. *)
Definition stops_after_f64 (v0 : scf_vars_f64) (k : nat) : bool :=
  let v := iter k scf_body_f64 v0 in
  ((0 < k)%N && ((iteration_f64 v)%:Z == maxit)) || ~~ loop_test_f64 v.

End Float64Loop.

Arguments ScfVarsF64 {R arrays} _ _ _ _ _.

(** The loop of the solver above, on numbers, as an instance: its arrays are
    [D], [Dold] and the pair of [C] and [eps]. *)
Section NumericPass.

Variable R : rcfType.
Variable nbf : nat.
Variable linalg_eigh : 'M[R]_nbf -> 'rV[R]_nbf * 'M[R]_nbf.
Variable options : hf_options R.
Variable env : scf_env R nbf.

Definition scf_arrays : Type :=
  ('M[R]_nbf * 'M[R]_nbf * option ('M[R]_nbf * 'rV[R]_nbf))%type.

Definition numeric_pass (it : nat) (a : scf_arrays)
  : f64 R * f64 R * scf_arrays :=
  let: (D0, Dold0, _) := a in
  let: (D, Dold) := damp_density options (ScfVars it 0 0 D0 Dold0 0 None) in
  let F := build_fock env D in
  let residual := root_mean_square (diis_error env F D) in
  let: (E_scf, D, C, eps) := rhf_iter linalg_eigh env F D in
  (Num E_scf, Num residual, (D, Dold, Some (C, eps))).

Definition embed_vars (v : scf_vars R nbf) : scf_vars_f64 R scf_arrays :=
  ScfVarsF64 (iteration v) (Num (E_scf v)) (Num (E_old v)) (Num (dRMS v))
             (D v, Dold v, C_eps v).

End NumericPass.

(** The scalars of a run whose overlap matrix is not positive definite, from
    a zero density and with an occupied orbital: [jnp.linalg.cholesky]
    returns NaN, so that [A] is NaN; the first pass binds the energy [0] (of
    the zero density) and a density of NaN, every later pass an energy of
    NaN, and the residual, first computed in the third pass, is NaN. *)
Definition nan_pass (it : nat) (a : unit) : f64 algR * f64 algR * unit :=
  (if it == 0%N then Num 0 else NaN, NaN, tt).

Definition nan_v0 : scf_vars_f64 algR unit :=
  ScfVarsF64 0 (Num 1) (Num 0) (Num 1) tt.

Definition nan_v3 : scf_vars_f64 algR unit := ScfVarsF64 3 NaN NaN NaN tt.

(** * Properties *)

(** ** Results *)

Lemma rbind_ok (A B : Type) (c : result A) (k : A -> result B) (b : B) :
  (x <- c ;; k x) = Ok b <-> exists2 a, c = Ok a & k a = Ok b.
Proof.
split; last by case=> a -> .
by case: c => [a|e] //= kab; exists a.
Qed.

(** ** Arrays *)

Section NdArrayTheory.

Variable F : Type.
Implicit Types (a m : ndarray F) (ms : seq (ndarray F)).

Lemma ndarray_eta a : NdArray (shape a) (data a) = a.
Proof. by case: a. Qed.

(** Equal-sized chunks of a flattened list are found again by [take] and
    [drop]. *)
Lemma chunk_flatten (T : Type) (k : nat) (ss : seq (seq T)) (i : nat) :
  all (fun s => size s == k) ss -> (i < size ss)%N ->
  take k (drop (i * k) (flatten ss)) = nth [::] ss i.
Proof.
elim: ss i => [|s ss IH] [|i] //= /andP[/eqP sz_s all_ss].
  by move=> _; rewrite mul0n drop0 take_size_cat.
rewrite ltnS => lt_i; rewrite mulSn addnC -drop_drop drop_size_cat //.
exact: IH.
Qed.

Lemma sumn_ones (T : Type) (s : seq T) : sumn [seq 1%N | _ <- s] = size s.
Proof. by elim: s => //= _ s ->. Qed.

(** Stacking arrays of one shape: the result has one slice per array, and
    each slice is the array it came from. *)
Lemma concatenate0_stack (sh : seq nat) m ms :
  all (fun b => shape b == sh) (m :: ms) ->
  all (@well_shaped F) (m :: ms) ->
  exists R,
    [/\ concatenate0 [seq expand_dims0 b | b <- m :: ms] = Ok R,
        shape R = size (m :: ms) :: sh
      & forall i, (i < size (m :: ms))%N ->
          getitem0 R i = nth m (m :: ms) i].
Proof.
move=> all_sh all_ws.
exists (NdArray (size (m :: ms) :: sh) (flatten [seq data b | b <- m :: ms])).
split=> //.
- rewrite /concatenate0 /= all_map.
  have /andP[/eqP sh_m sh_ms] := all_sh.
  have -> : all (preim (@expand_dims0 F) (fun b =>
              (size (shape b) != 0%N) && (behead (shape b) == shape m))) ms.
    by apply: sub_all sh_ms => b /=; rewrite sh_m.
  rewrite sh_m -!map_comp /=; congr (Ok (NdArray (_ :: _) _)).
    by rewrite (@eq_map _ _ _ (fun=> 1%N)) // sumn_ones.
- move=> i lt_i; rewrite /getitem0 [shape _]/= [behead _]/= [data _]/=.
  rewrite -[data m ++ _]/(flatten [seq data b | b <- m :: ms]).
  have sizes : all (fun s => size s == numel sh) [seq data b | b <- m :: ms].
    rewrite all_map; apply/(all_nthP m) => j lt_j.
    have /(all_nthP m)/(_ j lt_j) := all_ws.
    by have /(all_nthP m)/(_ j lt_j)/eqP <- := all_sh.
  rewrite (chunk_flatten sizes) ?size_map // (nth_map m) //.
  have /(all_nthP m)/(_ i lt_i)/eqP <- := all_sh.
  exact: ndarray_eta.
Qed.

End NdArrayTheory.

(** ** The integral primitives *)

Section OeiTheory.

Variable F : Type.
Variable session : libint_session F.
Variable get_deriv_vec_idx : deriv_vec -> result int.
Variable disk : option (h5file F).

Local Notation eval_k := (eval_k session).
Local Notation eval_k_deriv := (eval_k_deriv get_deriv_vec_idx disk).
Local Notation primitive_jvps :=
  (primitive_jvps session get_deriv_vec_idx disk).
Local Notation primitive_jvps_deriv :=
  (primitive_jvps_deriv get_deriv_vec_idx disk).
Local Notation primitive_batchers :=
  (primitive_batchers get_deriv_vec_idx disk).

Implicit Types (k : integral_kind) (g : geometry F) (u t v : deriv_vec).

(** The three derivative evaluators are one look-up, up to the dataset
    name. *)
Lemma eval_k_derivE k g v :
  eval_k_deriv k g v =
    (idx <- get_deriv_vec_idx v ;;
     f <- h5_open disk ;;
     data_set <- h5_getitem f (dataset_name k (np_sum v)) ;;
     h5_slice data_set idx).
Proof. by case: k. Qed.

Lemma primitive_jvpsE k g t :
  primitive_jvps k g t =
    (primals_out <- eval_k k g ;;
     tangents_out <- eval_k_deriv k g t ;;
     Ok (primals_out, tangents_out)).
Proof. by case: k. Qed.

Lemma primitive_jvps_derivE k g u t t' :
  primitive_jvps_deriv k (g, u) (t, t') =
    (primals_out <- eval_k_deriv k g u ;;
     shifted <- vec_add u t ;;
     tangents_out <- eval_k_deriv k g shifted ;;
     Ok (primals_out, tangents_out)).
Proof. by case: k. Qed.

Lemma primitive_batchersE k g (vs : seq deriv_vec) dims :
  primitive_batchers k (g, vs) dims =
    (results <- batch_loop (eval_k_deriv k g) vs [::] ;;
     results <- concatenate0 results ;;
     Ok (results, 0%N)).
Proof. by case: k; case: dims. Qed.

Lemma h5_slice_shape (d : dataset F) (idx : int) (m : ndarray F) :
  h5_slice d idx = Ok m ->
  shape m = [:: (ds_shape d).1.1; (ds_shape d).1.2] /\ well_shaped m.
Proof.
rewrite /h5_slice; case: (ds_shape d) => [[a b] c] /=.
have ws j : well_shaped
    (NdArray [:: a; b] [seq ds_cell d i j0 j | i <- iota 0 a, j0 <- iota 0 b]).
  by rewrite /well_shaped /= size_allpairs !size_iota muln1.
by case: idx => j; case: ifP => // _ [<-]; split.
Qed.

Lemma eval_k_deriv_well_shaped k g v (m : ndarray F) :
  eval_k_deriv k g v = Ok m -> well_shaped m.
Proof.
rewrite eval_k_derivE => /rbind_ok[idx _] /rbind_ok[f _] /rbind_ok[d _].
by case/h5_slice_shape.
Qed.

Lemma vec_add_same_size u t :
  size u = size t -> vec_add u t = Ok [seq x.1 + x.2 | x <- zip u t].
Proof. by rewrite /vec_add => ->; rewrite eqxx. Qed.

(** The loop of the batching rules collects the results in order. *)
Lemma batch_loop_ok (deriv : deriv_vec -> result (ndarray F))
    (vs : seq deriv_vec) (ms acc : seq (ndarray F)) :
  [seq deriv v | v <- vs] = [seq Ok m | m <- ms] ->
  batch_loop deriv vs acc = Ok (acc ++ [seq expand_dims0 m | m <- ms]).
Proof.
elim: vs ms acc => [|v vs IH] [|m ms] acc //=; first by rewrite cats0.
by case=> -> eq_ms /=; rewrite (IH _ _ eq_ms) cat_rcons.
Qed.

Lemma batch_loop_raise (deriv : deriv_vec -> result (ndarray F))
    (vs : seq deriv_vec) (acc : seq (ndarray F)) (i : nat) (e : exn) :
  (i < size vs)%N -> deriv (nth [::] vs i) = Raise e ->
  (forall j, (j < i)%N -> is_ok (deriv (nth [::] vs j))) ->
  batch_loop deriv vs acc = Raise e.
Proof.
elim: vs acc i => [|v vs IH] acc [|i] //=; first by move=> _ ->.
rewrite ltnS => lt_i raise_i ok_before.
have := ok_before 0%N isT; rewrite /=; case: (deriv v) => //= m _.
by apply: (IH _ i) => // j lt_j; apply: (ok_before j.+1).
Qed.

Lemma collect_results (deriv : deriv_vec -> result (ndarray F))
    (P : ndarray F -> Prop) (vs : seq deriv_vec) :
  (forall i, (i < size vs)%N ->
     exists2 m, deriv (nth [::] vs i) = Ok m & P m) ->
  exists2 ms, [seq deriv v | v <- vs] = [seq Ok m | m <- ms]
            & forall m0 i, (i < size ms)%N -> P (nth m0 ms i).
Proof.
elim: vs => [|v vs IH] ok_vs; first by exists [::].
have [m dv Pm] := ok_vs 0%N isT.
have [i lt_i|ms eq_ms Pms] := IH; first exact: (ok_vs i.+1).
exists (m :: ms); first by rewrite /= dv eq_ms.
by move=> m0 [|i] //=; rewrite ltnS; apply: Pms.
Qed.

End OeiTheory.

Section OeiClaims.

Variable F : Type.
Variable session : libint_session F.
Variable get_deriv_vec_idx : deriv_vec -> result int.
Variable disk : option (h5file F).

Local Notation eval := (eval_k session).
Local Notation eval_deriv := (eval_k_deriv get_deriv_vec_idx disk).
Local Notation jvp := (primitive_jvps session get_deriv_vec_idx disk).
Local Notation jvp_deriv := (primitive_jvps_deriv get_deriv_vec_idx disk).
Local Notation batcher := (primitive_batchers get_deriv_vec_idx disk).

Implicit Types (k : integral_kind) (g : geometry F) (u t v : deriv_vec).

(** Claim C1.  Forward-mode composition.  For every integral kind, geometry
    [g] and derivative vectors [u] and [t] ([t] being [tangents[0]]), the JVP
    rule of the derivative operator returns the pair [(P, T)] exactly when
    [eval_k_deriv g u] returns [P] and [eval_k_deriv g (u + t)] returns [T];
    on vectors of one length [u + t] is the cell-wise sum.  The JVP rule of
    the base operator returns [(P, T)] exactly when [eval_k g] returns [P]
    and [eval_k_deriv g t] returns [T]. *)
Theorem jvp_composition k g u t t' (P T : ndarray F) :
  [/\ jvp_deriv k (g, u) (t, t') = Ok (P, T) <->
        eval_deriv k g u = Ok P
        /\ (exists2 w, vec_add u t = Ok w & eval_deriv k g w = Ok T),
      size u = size t -> vec_add u t = Ok [seq x.1 + x.2 | x <- zip u t]
    & jvp k g t = Ok (P, T) <->
        eval k g = Ok P /\ eval_deriv k g t = Ok T].
Proof.
split.
- rewrite primitive_jvps_derivE; split.
    case/rbind_ok=> P' evP /rbind_ok[w add_w] /rbind_ok[T' evT] [eqP eqT].
    by rewrite -eqP -eqT; split=> //; exists w.
  by case=> -> [w -> /= ->].
- exact: vec_add_same_size.
- rewrite primitive_jvpsE; split; last by case=> -> /= ->.
  by case/rbind_ok=> P' -> /rbind_ok[T' ->] [-> ->].
Qed.

(** Claim C10.  The derivative evaluators do not read their geometry
    argument: on any two geometries they return the same result, which the
    derivative vector, the index mapper and the content of the store
    determine. *)
Theorem deriv_geometry_independence k (g1 g2 : geometry F) v :
  [/\ eval_deriv k g1 v = eval_deriv k g2 v,
      overlap_deriv_impl get_deriv_vec_idx disk g1 v
        = overlap_deriv_impl get_deriv_vec_idx disk g2 v,
      kinetic_deriv_impl get_deriv_vec_idx disk g1 v
        = kinetic_deriv_impl get_deriv_vec_idx disk g2 v
    & potential_deriv_impl get_deriv_vec_idx disk g1 v
        = potential_deriv_impl get_deriv_vec_idx disk g2 v].
Proof. by split=> //; rewrite !eval_k_derivE. Qed.

(** Claim C3, as amended.  When the store file is there and the index
    mapper returns, a derivative vector whose dataset is absent from the
    store makes [eval_k_deriv] fail with the [KeyError] of the look-up, which
    carries the name of the dataset. *)
Theorem missing_dataset_key_error k g v (idx : int) (f : h5file F) :
  get_deriv_vec_idx v = Ok idx ->
  disk = Some f ->
  h5_lookup f (dataset_name k (np_sum v)) = None ->
  eval_deriv k g v = Raise (KeyError (dataset_name k (np_sum v))).
Proof.
move=> get_idx disk_f missing; rewrite eval_k_derivE get_idx disk_f /=.
by rewrite /h5_getitem missing.
Qed.

(** Claim C6, as amended.  For a geometry [g] and a sequence [vs] of
    derivative vectors that is not empty and whose evaluations all return
    arrays of one shape [sh], the batching rule returns an array of shape
    [size vs :: sh] together with the batch axis [0], and its [i]-th slice
    along that axis is what [eval_k_deriv g] returns on the [i]-th vector. *)
Theorem batch_stacks_results k g (vs : seq deriv_vec) dims (sh : seq nat) :
  vs != [::] ->
  (forall i, (i < size vs)%N ->
     exists2 m, eval_deriv k g (nth [::] vs i) = Ok m & shape m = sh) ->
  exists R,
    [/\ batcher k (g, vs) dims = Ok (R, 0%N),
        shape R = size vs :: sh
      & forall i, (i < size vs)%N ->
          eval_deriv k g (nth [::] vs i) = Ok (getitem0 R i)].
Proof.
move=> vs_neq0 ok_vs.
have [i lt_i|ms eq_ms Pms] := @collect_results F (eval_deriv k g)
    (fun m => shape m = sh /\ well_shaped m) vs.
  have [m ev sh_m] := ok_vs i lt_i; exists m => //; split=> //.
  exact: eval_k_deriv_well_shaped ev.
have sz_ms : size ms = size vs.
  by have := congr1 size eq_ms; rewrite !size_map.
case: ms => [|m ms] in eq_ms Pms sz_ms *.
  by case: (vs) vs_neq0 sz_ms.
have all_sh : all (fun b => shape b == sh) (m :: ms).
  by apply/(all_nthP m) => i /(Pms m)[/eqP].
have all_ws : all (@well_shaped F) (m :: ms).
  by apply/(all_nthP m) => i /(Pms m)[].
have [R [cat_R sh_R get_R]] := concatenate0_stack all_sh all_ws.
exists R; split; first 1 last.
- by rewrite sh_R sz_ms.
- move=> i lt_i; rewrite get_R ?sz_ms //.
  have := congr1 (fun s => nth (Raise ValueError) s i) eq_ms.
  by rewrite (nth_map [::]) // (nth_map m) ?sz_ms.
- rewrite primitive_batchersE (batch_loop_ok _ eq_ms) cat0s.
  by rewrite [LHS]/rbind cat_R.
Qed.

End OeiClaims.

(** The JVP rules on the store of the examples: the tangent of the overlap
    along the sixth coordinate, and the tangent of its derivative along the
    third coordinate, taken along the first. *)
Example jvp_demo :
  primitive_jvps demo_session demo_idx (Some demo_store) Overlap demo_geom
    (unit_vec 6 5)
  = Ok (NdArray [:: 2; 2]%N [:: 1; 2; 3; 4]%N,
        NdArray [:: 2; 2]%N [:: 1005; 1015; 1105; 1115]%N).
Proof. by []. Qed.

Example jvp_deriv_demo :
  primitive_jvps_deriv demo_idx (Some demo_store) Overlap
    (demo_geom, unit_vec 6 2) (unit_vec 6 0, [::])
  = Ok (NdArray [:: 2; 2]%N [:: 1002; 1012; 1102; 1112]%N,
        NdArray [:: 2; 2]%N [:: 4000; 4010; 4100; 4110]%N).
Proof. by []. Qed.

(** Claim C3 fails as stated: the store of the examples holds no
    second-order kinetic dataset, and a second-order kinetic request raises
    [KeyError], not [MissingDerivativeDataError]. *)
Lemma missing_dataset_counterexample :
  let v : deriv_vec := [:: 2; 0; 0; 0; 0; 0] in
  [/\ h5_lookup demo_store (dataset_name Kinetic (np_sum v)) = None,
      eval_k_deriv demo_idx (Some demo_store) Kinetic demo_geom v
        = Raise (KeyError "kinetic_deriv2")
    & eval_k_deriv demo_idx (Some demo_store) Kinetic demo_geom v
        <> Raise MissingDerivativeDataError].
Proof. by []. Qed.

(** The amended claim C3 at work: a second-order potential request on the
    store of the examples. *)
Lemma missing_dataset_key_error_witness :
  let v : deriv_vec := [:: 0; 0; 0; 2; 0; 0] in
  [/\ demo_idx v = Ok (3 : int),
      h5_lookup demo_store (dataset_name Potential (np_sum v)) = None
    & eval_k_deriv demo_idx (Some demo_store) Potential demo_geom v
        = Raise (KeyError "potential_deriv2")].
Proof.
move=> v; split; [by [] | by [] | ].
exact: (@missing_dataset_key_error nat demo_idx (Some demo_store) Potential
          demo_geom v 3 demo_store erefl erefl erefl).
Defined.

(** Claim C6 fails as stated: on the empty sequence the batching rule hands
    an empty list to [jnp.concatenate] and raises [ValueError]. *)
Lemma empty_batch_counterexample :
  primitive_batchers demo_idx (Some demo_store) Overlap
    (demo_geom, [::]) (None, Some 0%N) = Raise ValueError
  /\ ~ exists R, primitive_batchers demo_idx (Some demo_store) Overlap
                   (demo_geom, [::]) (None, Some 0%N) = Ok (R, 0%N).
Proof. by split=> // -[R]. Qed.

(** The amended claim C6 at work: a batch of two first-order requests. *)
Lemma batch_stacks_results_witness :
  let vs := [:: unit_vec 6 2; unit_vec 6 0] in
  exists R,
    [/\ primitive_batchers demo_idx (Some demo_store) Overlap (demo_geom, vs)
          (None, Some 0%N) = Ok (R, 0%N),
        shape R = [:: 2; 2; 2]%N
      & forall i, (i < 2)%N ->
          eval_k_deriv demo_idx (Some demo_store) Overlap demo_geom
            (nth [::] vs i) = Ok (getitem0 R i)].
Proof.
move=> vs.
apply: (@batch_stacks_results nat demo_idx (Some demo_store) Overlap demo_geom
          vs (None, Some 0%N) [:: 2; 2]%N) => //.
case=> [|[|i]] // _.
  by exists (NdArray [:: 2; 2]%N [:: 1002; 1012; 1102; 1112]%N).
by exists (NdArray [:: 2; 2]%N [:: 1000; 1010; 1100; 1110]%N).
Defined.

Section Mx2Theory.
Variable R : comNzRingType.
Implicit Types a b c d : R.

Lemma sum_ord2 (f : 'I_2 -> R) : \sum_i f i = f 0 + f 1.
Proof.
rewrite !big_ord_recl big_ord0 addr0.
by congr (f _ + f _); apply/val_inj.
Qed.

Lemma mx2_eq a b c d a' b' c' d' :
  a = a' -> b = b' -> c = c' -> d = d' -> mx2 a b c d = mx2 a' b' c' d'.
Proof. by move=> -> -> -> ->. Qed.

Lemma mx2_eta (M : 'M[R]_2) : M = mx2 (M 0 0) (M 0 1) (M 1 0) (M 1 1).
Proof.
apply/matrixP => i j; rewrite mxE.
case: i => [[|[|?]] ?] //=; case: j => [[|[|?]] ?] //=;
  by congr (M _ _); apply/val_inj.
Qed.

Lemma mx2_mul a b c d a' b' c' d' :
  mx2 a b c d *m mx2 a' b' c' d' =
  mx2 (a * a' + b * c') (a * b' + b * d') (c * a' + d * c') (c * b' + d * d').
Proof.
apply/matrixP => i j; rewrite !mxE sum_ord2 !mxE /=.
by case: i => [[|[|?]] ?] //=; case: j => [[|[|?]] ?].
Qed.

Lemma mx2_tr a b c d : (mx2 a b c d)^T = mx2 a c b d.
Proof.
apply/matrixP => i j; rewrite !mxE.
by case: i => [[|[|?]] ?] //=; case: j => [[|[|?]] ?].
Qed.

Lemma mx2_add a b c d a' b' c' d' :
  mx2 a b c d + mx2 a' b' c' d' = mx2 (a + a') (b + b') (c + c') (d + d').
Proof.
apply/matrixP => i j; rewrite !mxE.
by case: i => [[|[|?]] ?] //=; case: j => [[|[|?]] ?].
Qed.

Lemma mx2_opp a b c d : - mx2 a b c d = mx2 (- a) (- b) (- c) (- d).
Proof.
apply/matrixP => i j; rewrite !mxE.
by case: i => [[|[|?]] ?] //=; case: j => [[|[|?]] ?].
Qed.


Lemma mx2_one : 1%:M = mx2 1 0 0 1 :> 'M[R]_2.
Proof.
apply/matrixP => i j; rewrite !mxE.
by case: i => [[|[|?]] ?] //=; case: j => [[|[|?]] ?].
Qed.

Lemma mx2_zero : 0 = mx2 0 0 0 0 :> 'M[R]_2.
Proof.
apply/matrixP => i j; rewrite !mxE.
by case: i => [[|[|?]] ?] //=; case: j => [[|[|?]] ?].
Qed.

End Mx2Theory.


Section LoopTheory.

Variable R : rcfType.
Variable nbf : nat.
Variable linalg_eigh : 'M[R]_nbf -> 'rV[R]_nbf * 'M[R]_nbf.
Variable options : hf_options R.
Variable env : scf_env R nbf.

Local Notation body := (scf_body linalg_eigh options env).
Local Notation loop := (scf_loop linalg_eigh options env).
Local Notation stops := (stops_after linalg_eigh options env).

Implicit Types v : scf_vars R nbf.

(** The density handed to the JK build in a pass. *)
Lemma scf_bodyE v :
  let Dd := (damp_density options v).1 in
  let F := build_fock env Dd in
  let r := rhf_iter linalg_eigh env F Dd in
  body v =
    ScfVars (iteration v).+1 r.1.1.1 (E_scf v * 1) r.1.1.2
      (damp_density options v).2
      (if (1 < iteration v)%N then root_mean_square (diis_error env F Dd)
       else dRMS v)
      (Some (r.1.2, r.2)).
Proof.
rewrite /scf_body; case: (damp_density options v) => Dd Dd' /=.
by case: (rhf_iter _ _ _ _) => [[[E Dn] C] eps].
Qed.

Lemma iteration_body v : iteration (body v) = (iteration v).+1.
Proof. by rewrite scf_bodyE. Qed.

Lemma iteration_iter k v : iteration (iter k body v) = (iteration v + k)%N.
Proof. by elim: k => [|k IH] /=; rewrite ?addn0 // iteration_body IH addnS. Qed.

Lemma loop_testE v : loop_test env v = ~~ converged env v.
Proof. by rewrite /loop_test /converged negb_and -!ltNge. Qed.

Lemma stops0 v0 : stops v0 0 = converged env v0.
Proof. by []. Qed.

Lemma stopsS v0 k :
  stops v0 k.+1 =
    ((iteration (iter k body (body v0)))%:Z == maxit options)
    || converged env (iter k body (body v0)).
Proof. by rewrite /stops_after iterSr. Qed.

Lemma stops_shift v0 k :
  (iteration (body v0))%:Z != maxit options ->
  stops (body v0) k = stops v0 k.+1.
Proof.
move=> no_break; rewrite stopsS.
by case: k => [|k] //=; rewrite (negPf no_break).
Qed.

Lemma scf_loop_sound fuel v0 vf :
  loop fuel v0 = Some vf ->
  exists k, [/\ (k <= fuel)%N, vf = iter k body v0, stops v0 k
              & forall j, (j < k)%N -> ~~ stops v0 j].
Proof.
elim: fuel v0 => [|fuel IH] v0 //=.
case test: (loop_test env v0); last first.
  case=> <-; exists 0%N; split=> //.
  by rewrite stops0 -[converged _ _]negbK -loop_testE test.
have not0 : ~~ stops v0 0 by rewrite stops0 -loop_testE.
case: eqP => [hit [<-]|/eqP no_break /IH[k [le_k -> stop_k min_k]]].
  exists 1%N; split=> //; first by rewrite stopsS /= hit eqxx.
  by case.
exists k.+1; split=> //; first by rewrite iterSr.
  by rewrite -stops_shift.
by case=> [|j] //; rewrite ltnS -stops_shift //; apply: min_k.
Qed.

Lemma scf_loop_complete k v0 fuel :
  stops v0 k -> (forall j, (j < k)%N -> ~~ stops v0 j) -> (k < fuel)%N ->
  loop fuel v0 = Some (iter k body v0).
Proof.
elim: k v0 fuel => [|k IH] v0 [|fuel] //=.
  by rewrite stops0 loop_testE => ->.
move=> stop_k min_k; rewrite ltnS => lt_k.
have := min_k 0%N isT; rewrite stops0 -loop_testE => ->.
case: eqP => [hit|/eqP no_break].
  case: k IH stop_k min_k lt_k => [|k] // _ _ min_k _.
  by have := min_k 1%N isT; rewrite stopsS /= hit eqxx.
rewrite -[body (iter k body v0)]/(iter k.+1 body v0) iterSr.
apply: IH => //; first by rewrite stops_shift.
by move=> j lt_j; rewrite stops_shift //; apply: min_k.
Qed.

(** With a positive [maxit] the loop is left after at most [maxit] passes. *)
Lemma scf_loop_terminates (m : nat) v0 :
  maxit options = Posz m -> (0 < m)%N -> iteration v0 = 0%N ->
  exists k, [/\ (k <= m)%N, stops v0 k, forall j, (j < k)%N -> ~~ stops v0 j
              & forall fuel, (m < fuel)%N ->
                  loop fuel v0 = Some (iter k body v0)].
Proof.
move=> maxit_m m_gt0 it0.
have stop_m : stops v0 m.
  by rewrite /stops_after m_gt0 iteration_iter it0 add0n maxit_m eqxx.
have [k stop_k min_k] := ex_minnP (ex_intro _ m stop_m).
have le_km : (k <= m)%N by apply: min_k.
have min_k' j : (j < k)%N -> ~~ stops v0 j.
  by move=> lt_j; apply/negP => /min_k; rewrite leqNgt lt_j.
exists k; split=> // fuel lt_m; apply: scf_loop_complete => //.
exact: leq_ltn_trans lt_m.
Qed.

End LoopTheory.

(** ** The loop on scalars that may be NaN *)

Section Float64LoopTheory.

Variable R : rcfType.
Variable arrays : Type.
Variable pass : nat -> arrays -> f64 R * f64 R * arrays.
Variable c : R.
Variable maxit : int.

Local Notation body := (scf_body_f64 pass).
Local Notation loop := (scf_loop_f64 pass c maxit).
Local Notation test := (loop_test_f64 c).
Local Notation stops := (stops_after_f64 pass c maxit).

Implicit Types (v : scf_vars_f64 R arrays) (x : f64 R).

Lemma f64_gtE x : f64_gt x (Num c) = ~~ (f64_le x (Num c) || is_nan x).
Proof. by case: x => [a|] //=; rewrite orbF ltNge. Qed.

Lemma is_nan_abs_sub x y :
  is_nan (f64_abs (f64_sub x y)) = is_nan x || is_nan y.
Proof. by case: x => [a|]; case: y => [b|]. Qed.

Lemma loop_test_f64E v :
  test v =
    ~~ ((f64_le (f64_abs (f64_sub (E_scf_f64 v) (E_old_f64 v))) (Num c)
         || is_nan (E_scf_f64 v) || is_nan (E_old_f64 v))
        && (f64_le (dRMS_f64 v) (Num c) || is_nan (dRMS_f64 v))).
Proof.
by rewrite /loop_test_f64 !f64_gtE is_nan_abs_sub negb_and orbA.
Qed.

Lemma loop_test_f64_num v : ~~ has_nan v -> test v = ~~ converged_f64 c v.
Proof.
rewrite loop_test_f64E /has_nan /converged_f64 !negb_or.
by case/and3P=> /negPf-> /negPf-> /negPf->; rewrite !orbF.
Qed.

Lemma iteration_body_f64 v : iteration_f64 (body v) = (iteration_f64 v).+1.
Proof. by rewrite /scf_body_f64; case: (pass _ _) => [[E r] a]. Qed.

Lemma iteration_iter_f64 k v :
  iteration_f64 (iter k body v) = (iteration_f64 v + k)%N.
Proof.
by elim: k => [|k IH] /=; rewrite ?addn0 // iteration_body_f64 IH addnS.
Qed.

Lemma stops_f64_0 v0 : stops v0 0 = ~~ test v0.
Proof. by []. Qed.

Lemma stops_f64_S v0 k :
  stops v0 k.+1 =
    ((iteration_f64 (iter k body (body v0)))%:Z == maxit)
    || ~~ test (iter k body (body v0)).
Proof. by rewrite /stops_after_f64 iterSr. Qed.

Lemma stops_f64_shift v0 k :
  (iteration_f64 (body v0))%:Z != maxit ->
  stops (body v0) k = stops v0 k.+1.
Proof.
move=> no_break; rewrite stops_f64_S.
by case: k => [|k] //=; rewrite (negPf no_break).
Qed.

Lemma scf_loop_f64_sound fuel v0 vf :
  loop fuel v0 = Some vf ->
  exists k, [/\ (k <= fuel)%N, vf = iter k body v0, stops v0 k
              & forall j, (j < k)%N -> ~~ stops v0 j].
Proof.
elim: fuel v0 => [|fuel IH] v0 //=.
case tst: (test v0); last first.
  by case=> <-; exists 0%N; split=> //; rewrite stops_f64_0 tst.
have not0 : ~~ stops v0 0 by rewrite stops_f64_0 tst.
case: eqP => [hit [<-]|/eqP no_break /IH[k [le_k -> stop_k min_k]]].
  exists 1%N; split=> //; first by rewrite stops_f64_S /= hit eqxx.
  by case.
exists k.+1; split=> //; first by rewrite iterSr.
  by rewrite -stops_f64_shift.
by case=> [|j] //; rewrite ltnS -stops_f64_shift //; apply: min_k.
Qed.

Lemma scf_loop_f64_complete k v0 fuel :
  stops v0 k -> (forall j, (j < k)%N -> ~~ stops v0 j) -> (k < fuel)%N ->
  loop fuel v0 = Some (iter k body v0).
Proof.
elim: k v0 fuel => [|k IH] v0 [|fuel] //=.
  by rewrite stops_f64_0 => /negPf->.
move=> stop_k min_k; rewrite ltnS => lt_k.
have := min_k 0%N isT; rewrite stops_f64_0 negbK => ->.
case: eqP => [hit|/eqP no_break].
  case: k IH stop_k min_k lt_k => [|k] // _ _ min_k _.
  by have := min_k 1%N isT; rewrite stops_f64_S /= hit eqxx.
rewrite -[body (iter k body v0)]/(iter k.+1 body v0) iterSr.
apply: IH => //; first by rewrite stops_f64_shift.
by move=> j lt_j; rewrite stops_f64_shift //; apply: min_k.
Qed.

Lemma scf_loop_f64_terminates (m : nat) v0 :
  maxit = Posz m -> (0 < m)%N -> iteration_f64 v0 = 0%N ->
  exists k, [/\ (k <= m)%N, stops v0 k, forall j, (j < k)%N -> ~~ stops v0 j
              & forall fuel, (m < fuel)%N ->
                  loop fuel v0 = Some (iter k body v0)].
Proof.
move=> maxit_m m_gt0 it0.
have stop_m : stops v0 m.
  by rewrite /stops_after_f64 m_gt0 iteration_iter_f64 it0 add0n maxit_m eqxx.
have [k stop_k min_k] := ex_minnP (ex_intro _ m stop_m).
have le_km : (k <= m)%N by apply: min_k.
have min_k' j : (j < k)%N -> ~~ stops v0 j.
  by move=> lt_j; apply/negP => /min_k; rewrite leqNgt lt_j.
exists k; split=> // fuel lt_m; apply: scf_loop_f64_complete => //.
exact: leq_ltn_trans lt_m.
Qed.

End Float64LoopTheory.

Section NumericPassTheory.

Variable R : rcfType.
Variable nbf : nat.
Variable linalg_eigh : 'M[R]_nbf -> 'rV[R]_nbf * 'M[R]_nbf.
Variable options : hf_options R.
Variable env : scf_env R nbf.

Local Notation pass := (numeric_pass linalg_eigh options env).

Lemma embed_body (v : scf_vars R nbf) :
  embed_vars (scf_body linalg_eigh options env v)
  = scf_body_f64 pass (embed_vars v).
Proof.
rewrite scf_bodyE /scf_body_f64 /numeric_pass /embed_vars /=.
rewrite -[damp_density options (ScfVars _ _ _ _ _ _ _)]/(damp_density _ v).
case: (damp_density options v) => Dd Dold' /=.
case: (rhf_iter _ _ _ _) => [[[E Dn] C] eps] /=.
by case: ifP.
Qed.

Lemma embed_test (v : scf_vars R nbf) :
  loop_test_f64 (env_convergence env) (embed_vars v) = loop_test env v.
Proof. by []. Qed.

Lemma embed_loop (fuel : nat) (v : scf_vars R nbf) :
  scf_loop_f64 pass (env_convergence env) (maxit options) fuel (embed_vars v)
  = omap (@embed_vars R nbf) (scf_loop linalg_eigh options env fuel v).
Proof.
elim: fuel v => [|fuel IH] v //=.
rewrite embed_test; case: (loop_test env v) => //.
rewrite -embed_body /=.
by case: eqP => // _; rewrite IH.
Qed.

End NumericPassTheory.

Section LinAlgTheory.

Variable R : rcfType.
Variable nbf : nat.
Variable linalg_cholesky : 'M[R]_nbf -> 'M[R]_nbf.
Variable linalg_inv : 'M[R]_nbf -> 'M[R]_nbf.
Variable linalg_eigh : 'M[R]_nbf -> 'rV[R]_nbf * 'M[R]_nbf.

Lemma frobeniusE (X Y : 'M[R]_nbf) : frobenius X Y = einsum_pq_pq X Y.
Proof.
rewrite /frobenius /mxtrace /einsum_pq_pq exchange_big /=.
apply: eq_bigr => i _; rewrite mxE.
by apply: eq_bigr => j _; rewrite mxE.
Qed.

Lemma cholesky_factor_unit (L S : 'M[R]_nbf) :
  cholesky_factor L S -> L \in unitmx.
Proof.
case=> trigL posL _; rewrite unitmxE unitfE det_trig //.
by apply/prodf_neq0 => i _; rewrite gt_eqF.
Qed.

Lemma slice_stop_count (k : int) :
  0 <= k <= nbf%:Z -> (slice_stop nbf k)%:Z = k.
Proof. by case: k => // m /andP[_]; rewrite lez_nat /= => /minn_idPl->. Qed.

Lemma columns_upto_gram (k : int) (C : 'M[R]_nbf) (i j : 'I_nbf) :
  (columns_upto k C *m (columns_upto k C)^T) i j =
    \sum_(c < nbf | (c < slice_stop nbf k)%N) C i c * C j c.
Proof.
rewrite mxE (big_ord_narrow (slice_stop_le nbf k)) /=.
by apply: eq_bigr => c _; rewrite !mxE.
Qed.

End LinAlgTheory.

Section SolverTheory.

Variable R : rcfType.
Variable nbf : nat.
Variable linalg_cholesky : 'M[R]_nbf -> 'M[R]_nbf.
Variable linalg_inv : 'M[R]_nbf -> 'M[R]_nbf.
Variable linalg_eigh : 'M[R]_nbf -> 'rV[R]_nbf * 'M[R]_nbf.
Variable round6 : R -> R.
Variable compute_integrals :
  seq R -> string -> string -> seq int -> int -> nat -> hf_options R ->
  result (integrals R nbf).

Local Notation setup :=
  (hf_setup linalg_cholesky linalg_inv compute_integrals).
Local Notation run_hf :=
  (restricted_hartree_fock linalg_cholesky linalg_inv linalg_eigh round6
     compute_integrals).
Local Notation orthogonalizer :=
  (cholesky_orthogonalization linalg_cholesky linalg_inv).

(** *** The nuclear repulsion energy is defined on a full geometry *)

Lemma nuclear_repulsion_inner_ok (geom : seq (seq R)) (Zs : seq int)
    (i : nat) (js : seq nat) (nuc : R) :
  (i < size geom)%N -> all (fun j => (j < size geom)%N) js ->
  exists e, nuclear_repulsion_inner geom Zs i js nuc = Ok e.
Proof.
move=> lt_i; elim: js nuc => [|j js IH] nuc /=; first by exists nuc.
by case/andP=> lt_j /IH{}IH; rewrite /row_get lt_i lt_j /=; apply: IH.
Qed.

Lemma nuclear_repulsion_outer_ok (geom : seq (seq R)) (Zs : seq int)
    (rows : seq nat) (nuc : R) :
  all (fun i => (i < size geom)%N) rows ->
  exists e, nuclear_repulsion_outer geom Zs rows nuc = Ok e.
Proof.
elim: rows nuc => [|i rows IH] nuc /=; first by exists nuc.
case/andP=> lt_i /IH{}IH.
have [|e ->] /= := @nuclear_repulsion_inner_ok geom Zs i (iota 0 i) nuc lt_i.
  apply/allP => j; rewrite mem_iota add0n => /andP[_ lt_j].
  exact: ltn_trans lt_i.
exact: IH.
Qed.

Lemma nuclear_repulsion_ok (geom : seq R) (Zs : seq int) :
  size geom = (3 * size Zs)%N ->
  exists rows e,
    reshape_rows3 geom = Ok rows /\ nuclear_repulsion rows Zs = Ok e.
Proof.
move=> sz; rewrite /reshape_rows3 sz modnMr eqxx mulKn //.
have [|e nr] := @nuclear_repulsion_outer_ok
    (reshape (nseq (size Zs) 3%N) geom) Zs (iota 0 (size Zs)) 0.
  rewrite size_reshape size_nseq; apply/allP => i.
  by rewrite mem_iota add0n => /andP[].
by exists (reshape (nseq (size Zs) 3%N) geom), e.
Qed.

(** *** What the statements before the loop bind *)

Lemma hf_setupP geom bn xp Zs charge options d dm env v0 :
  setup geom bn xp Zs charge options d dm = Ok (env, v0) ->
  exists ints rows Enuc,
    [/\ compute_integrals geom bn xp Zs charge d options = Ok ints,
        reshape_rows3 geom = Ok rows /\ nuclear_repulsion rows Zs = Ok Enuc,
        env = ScfEnv (int_S ints) (int_G ints) (int_T ints + int_V ints)
                (orthogonalizer (int_S ints))
                (hf_shift R nbf (spectral_shift options)) Enuc
                ((np_sum Zs - charge) %/ 2)%Z
                (hf_convergence R (spectral_shift options))
      & v0 = ScfVars 0 1 0 (if dm is Some D0 then D0 else 0)
                     (if dm is Some D0 then D0 else 0) 1 None].
Proof.
rewrite /hf_setup.
move=> /rbind_ok[ints ci] /rbind_ok[rows rs] /rbind_ok[Enuc nr] [<- <-].
by exists ints, rows, Enuc.
Qed.

Lemma hf_setup_ok geom bn xp Zs charge options d dm ints :
  compute_integrals geom bn xp Zs charge d options = Ok ints ->
  size geom = (3 * size Zs)%N ->
  exists env v0, setup geom bn xp Zs charge options d dm = Ok (env, v0).
Proof.
move=> ci /nuclear_repulsion_ok[rows [e [rs nr]]].
by rewrite /hf_setup ci /= rs /= nr /=; eexists; eexists.
Qed.

Local Notation body options env := (scf_body linalg_eigh options env).


(** Claim C4.  [rhf_iter F D] returns as energy the Frobenius inner product
    of [F + H] with [D], whatever the nuclear repulsion energy of the
    environment is, and as density [Cocc Cocc^T], where [Cocc] is made of the
    first [ndocc] columns of [C = A C'].  With the eigenvalues in the
    ascending order of [eigh], these are the columns of lowest orbital
    energy. *)
Theorem rhf_iter_spec (env : scf_env R nbf) (F D : 'M[R]_nbf) :
  let Fp := (env_A env)^T *m (F *m env_A env) + env_shift env in
  let eps := (linalg_eigh Fp).1 in
  let C := env_A env *m (linalg_eigh Fp).2 in
  let nocc := slice_stop nbf (env_ndocc env) in
  let Cocc := columns_upto (env_ndocc env) C in
  (forall i j : 'I_nbf, (i <= j)%N -> eps 0 i <= eps 0 j) ->
  0 <= env_ndocc env <= nbf%:Z ->
  [/\ rhf_iter linalg_eigh env F D
        = (frobenius (F + env_H env) D, Cocc *m Cocc^T, C, eps),
      forall e, (rhf_iter linalg_eigh (with_Enuc env e) F D).1.1.1
                = frobenius (F + env_H env) D,
      nocc%:Z = env_ndocc env,
      forall i j, (Cocc *m Cocc^T) i j
                  = \sum_(c < nbf | (c < nocc)%N) C i c * C j c
    & forall c l : 'I_nbf, (c < nocc)%N -> (nocc <= l)%N ->
        eps 0 c <= eps 0 l].
Proof.
move=> Fp eps C nocc Cocc sorted_eps ndocc_range.
split.
- rewrite /rhf_iter -/Fp frobeniusE.
  by rewrite (surjective_pairing (linalg_eigh Fp)).
- by move=> e; rewrite /rhf_iter /= frobeniusE; case: (linalg_eigh _).
- exact: slice_stop_count.
- by move=> i j; rewrite columns_upto_gram.
- move=> c l lt_c le_l; apply: sorted_eps.
  by apply: ltnW; apply: leq_trans le_l.
Qed.

(** Claim C8.  With the [damping] option on, a pass whose iteration counter
    is below [10], and no other pass, replaces the density by
    [damp_factor * Dold + damp_factor * D], one factor for both halves; the
    Fock matrix of the pass and its energy are built on that density.  In a
    run started at counter [0] the counter of pass [k] is [k]. *)
Theorem damping_rule (options : hf_options R) (env : scf_env R nbf)
    (v : scf_vars R nbf) :
  let damped := damping options && (iteration v < 10)%N in
  let Dd := if damped
            then damp_factor options *: Dold v + damp_factor options *: D v
            else D v in
  let F := build_fock env Dd in
  [/\ damp_density options v = (Dd, if damped then 1 *: Dd else Dold v),
      damped -> Dd = damp_factor options *: (Dold v + D v),
      E_scf (body options env v) = einsum_pq_pq (F + env_H env) Dd,
      D (body options env v) = (rhf_iter linalg_eigh env F Dd).1.1.2
    & forall v0 k, iteration v0 = 0%N ->
        iteration (iter k (body options env) v0) = k].
Proof.
move=> damped Dd F.
have dd : damp_density options v = (Dd, if damped then 1 *: Dd else Dold v).
  rewrite /damp_density /Dd /damped.
  by case: (damping options) => //=; case: ifP.
split=> //.
- by rewrite /Dd => ->; rewrite scalerDr.
- by rewrite scf_bodyE dd /= /rhf_iter; case: (linalg_eigh _).
- by rewrite scf_bodyE dd.
- by move=> v0 k it0; rewrite iteration_iter it0.
Qed.

(** Claim C5, as amended.  A pass whose iteration counter is above [1], and
    no earlier pass, sets [dRMS] to the root of the mean of the squared cells
    of [A (F D S - S D F) A], for the Fock matrix [F] and the density [D] of
    the pass; an earlier pass leaves [dRMS] as it is. *)
Theorem diis_tracking (options : hf_options R) (env : scf_env R nbf)
    (v : scf_vars R nbf) :
  let Dd := (damp_density options v).1 in
  let F := build_fock env Dd in
  [/\ dRMS (body options env v)
        = (if (1 < iteration v)%N
           then root_mean_square
                  (env_A env *m (F *m Dd *m env_S env - env_S env *m Dd *m F)
                   *m env_A env)
           else dRMS v)
    & forall v0 k, iteration v0 = 0%N ->
        dRMS (iter k.+1 (body options env) v0)
        = (if (1 < k)%N
           then let vk := iter k (body options env) v0 in
                let Dk := (damp_density options vk).1 in
                root_mean_square (diis_error env (build_fock env Dk) Dk)
           else dRMS (iter k (body options env) v0))].
Proof.
move=> Dd F; split; first by rewrite scf_bodyE.
by move=> v0 k it0; rewrite /= scf_bodyE /= iteration_iter it0.
Qed.



End SolverTheory.

Section DemoTheory.

Local Notation Q := algR.

Lemma mx2E (a b c d : Q) :
  (mx2 a b c d 0 0 = a) * (mx2 a b c d 0 1 = b)
  * (mx2 a b c d 1 0 = c) * (mx2 a b c d 1 1 = d).
Proof. by rewrite !mxE. Qed.

Lemma rv2_eta (v : 'rV[Q]_2) : v = rv2 (v 0 0) (v 0 1).
Proof.
apply/rowP => j; rewrite mxE.
by case: j => [[|[|?]] ?] //=; congr (v _ _); apply/val_inj.
Qed.

Lemma quad_form2 (S : 'M[Q]_2) (v : 'rV[Q]_2) :
  (v *m S *m v^T) 0 0 =
    (v 0 0 * S 0 0 + v 0 1 * S 1 0) * v 0 0
    + (v 0 0 * S 0 1 + v 0 1 * S 1 1) * v 0 1.
Proof. by rewrite mxE sum_ord2 !mxE !sum_ord2. Qed.

Lemma demo_S_spd : spd demo_S.
Proof.
split; first by rewrite /demo_S mx2_tr.
move=> v v_neq0; rewrite quad_form2 /demo_S !mx2E.
set x := v 0 0; set y := v 0 1.
have -> : (x * 1 + y * 1) * x + (x * 1 + y * 2) * y = (x + y) ^+ 2 + y ^+ 2.
  by ring.
have [y0|y_neq0] := eqVneq y 0; last first.
  by rewrite ltr_wpDl ?sqr_ge0 // exprn_even_gt0.
rewrite y0 addr0 expr0n addr0 exprn_even_gt0 //=.
apply: contra_neq v_neq0 => x0.
by rewrite (rv2_eta v) -/x -/y x0 y0; apply/rowP => j; rewrite !mxE; case: ifP.
Qed.

Lemma cholesky2_factor (S : 'M[Q]_2) : spd S -> cholesky_factor (cholesky2 S) S.
Proof.
case=> symS posS.
have S01 : S 0 1 = S 1 0 by rewrite -[in LHS]symS mxE.
set a := S 0 0; set b := S 1 0; set c := S 1 1.
have a_gt0 : 0 < a.
  have := posS (rv2 1 0).
  rewrite quad_form2 !mxE /= !(mul1r, mul0r, mulr0, addr0, mulr1).
  apply; apply/eqP => /rowP/(_ 0); rewrite !mxE /=.
  by apply/eqP; rewrite oner_eq0.
have det_gt0 : 0 < a * c - b ^+ 2.
  have := posS (rv2 b (- a)); rewrite quad_form2 !mxE /= S01 -/a -/b -/c.
  have -> : (b * a + - a * b) * b + (b * b + - a * c) * - a
            = a * (a * c - b ^+ 2) by ring.
  rewrite pmulr_rgt0 //; apply.
  apply/eqP => /rowP/(_ 1); rewrite !mxE /= => /eqP.
  by rewrite oppr_eq0 gt_eqF.
have sqa : Num.sqrt a ^+ 2 = a by rewrite sqr_sqrtr // ltW.
have sqa_gt0 : 0 < Num.sqrt a by rewrite sqrtr_gt0.
have sq_l10 : (b / Num.sqrt a) ^+ 2 = b ^+ 2 / a by rewrite exprMn exprVn sqa.
have rest_gt0 : 0 < c - (b / Num.sqrt a) ^+ 2.
  rewrite sq_l10 -(pmulr_rgt0 _ a_gt0) mulrBr mulrCA divff ?gt_eqF // mulr1.
  by [].
rewrite /cholesky2 -/a -/b -/c; split.
- apply/is_trig_mxP => i j.
  by case: i => [[|[|?]] ?] //=; case: j => [[|[|?]] ?] //= _; rewrite mxE.
- move=> i; rewrite mxE.
  by case: i => [[|[|?]] ?] //=; rewrite sqrtr_gt0.
- rewrite mx2_tr mx2_mul [RHS]mx2_eta S01 -/a -/b -/c.
  apply: mx2_eq; rewrite ?(mulr0, mul0r, addr0, add0r) -?expr2 ?sqa //.
  + by rewrite mulrC divfK ?gt_eqF.
  + by rewrite divfK ?gt_eqF.
  + by rewrite sqr_sqrtr ?ltW // addrC subrK.
Qed.

Lemma invmx_left (n : nat) (L B : 'M[Q]_n) : B *m L = 1%:M -> invmx L = B.
Proof.
move=> BL; have [_ unitL] := mulmx1_unit BL.
by rewrite -[LHS]mul1mx -BL mulmxK.
Qed.

Lemma cholesky2_demo : cholesky2 demo_S = demo_L.
Proof.
rewrite /cholesky2 /demo_S !mx2E sqrtr1 divr1 expr1n.
by have -> : 2 - 1 = 1 :> Q; [ring | rewrite sqrtr1].
Qed.

Lemma orthogonalizer_demo :
  cholesky_orthogonalization cholesky2 invmx demo_S = demo_A.
Proof.
rewrite /cholesky_orthogonalization cholesky2_demo.
rewrite (@invmx_left _ _ (mx2 1 0 (- 1) 1)) ?mx2_tr //.
by rewrite /demo_L mx2_mul mx2_one; apply: mx2_eq; ring.
Qed.

Lemma norm_diff_demo : norm_diff [:: 0; 0; 1] [:: 0; 0; 0 : Q] = 1.
Proof.
by rewrite /norm_diff /= !subr0 expr0n expr1n /= !add0r addr0 sqrtr1.
Qed.

Lemma hf_setup_demo (m : int) :
  hf_setup cholesky2 invmx demo_integrals demo_geometry "sto-3g" "geom.xyz"
    demo_charges 0 (demo_options m) 0 None
  = Ok (demo_env, demo_v0).
Proof.
rewrite /hf_setup /demo_integrals [rbind _ _]/= orthogonalizer_demo.
rewrite norm_diff_demo divr1 mulr1 add0r.
have -> : demo_T + demo_V = demo_H.
  by rewrite /demo_T /demo_V mx2_add; apply: mx2_eq; ring.
by [].
Qed.

Lemma einsum2 (a b c d a' b' c' d' : Q) :
  einsum_pq_pq (mx2 a b c d) (mx2 a' b' c' d')
  = a * a' + b * b' + (c * c' + d * d').
Proof. by rewrite /einsum_pq_pq !sum_ord2 !mx2E. Qed.

Lemma root_mean_square2 (a b c d : Q) :
  root_mean_square (mx2 a b c d)
  = Num.sqrt ((a ^+ 2 + b ^+ 2 + (c ^+ 2 + d ^+ 2)) / 4%:R).
Proof. by rewrite /root_mean_square !sum_ord2 !mx2E. Qed.

Lemma jk_build0 (G : tensor4 Q 2) (D : 'M[Q]_2) :
  (forall p q r s, G p q r s = 0) -> jk_build G D = 0.
Proof.
move=> G0; apply/matrixP => p q; rewrite !mxE big1 // => r _.
by rewrite big1 // => s _; rewrite G0 mul0r.
Qed.

Lemma build_fock_demo (D : 'M[Q]_2) : build_fock demo_env D = demo_H.
Proof.
by rewrite /build_fock !jk_build0 // scaler0 subr0 addr0.
Qed.

Lemma fock_transform_demo :
  demo_A^T *m (demo_H *m demo_A) + 0 = mx2 (- 2%:R) 0 0 (- 1).
Proof.
rewrite addr0 /demo_A /demo_H mx2_tr !mx2_mul.
by apply: mx2_eq; ring.
Qed.

Lemma rhf_iter_demo (D : 'M[Q]_2) :
  rhf_iter eigh_diagonal demo_env demo_H D
  = (einsum_pq_pq (demo_H + demo_H) D, demo_D, demo_A, rv2 (- 2%:R) (- 1)).
Proof.
rewrite /rhf_iter /eigh_diagonal /= fock_transform_demo mulmx1.
congr (_, _, _, _).
- apply/matrixP => i j; apply: (etrans (columns_upto_gram 1 demo_A i j)).
  rewrite big_mkcond sum_ord2 /=.
  rewrite addr0 /demo_A /demo_D !mxE.
  by case: i => [[|[|?]] ?] //=; case: j => [[|[|?]] ?] //=; ring.
- by apply/rowP => j; rewrite !mxE; case: j => [[|[|?]] ?].
Qed.

Lemma energy_demo : einsum_pq_pq (demo_H + demo_H) demo_D = - 4%:R.
Proof. by rewrite /demo_H /demo_D mx2_add einsum2; ring. Qed.

Lemma pass1_demo (m : int) :
  scf_body eigh_diagonal (demo_options m) demo_env demo_v0 = demo_v1.
Proof.
rewrite scf_bodyE !build_fock_demo !rhf_iter_demo /= mulr1 /demo_v1.
congr (ScfVars _ _ _ _ _ _ _).
by rewrite mx2_zero /demo_H mx2_add einsum2; ring.
Qed.

Lemma pass2_demo (m : int) :
  scf_body eigh_diagonal (demo_options m) demo_env demo_v1 = demo_v2.
Proof.
rewrite scf_bodyE !build_fock_demo !rhf_iter_demo /= mulr1 /demo_v2.
by rewrite energy_demo.
Qed.

Lemma diis_error_demo : diis_error demo_env demo_H demo_D = 0.
Proof.
rewrite /diis_error /= /demo_H /demo_D /demo_S /demo_A !mx2_mul mx2_opp mx2_add.
by rewrite !mx2_mul mx2_zero; apply: mx2_eq; ring.
Qed.

Lemma root_mean_square0 : root_mean_square (0 : 'M[Q]_2) = 0.
Proof.
by rewrite mx2_zero root_mean_square2 expr0n /= !addr0 mul0r sqrtr0.
Qed.

Lemma pass3_demo (m : int) :
  scf_body eigh_diagonal (demo_options m) demo_env demo_v2 = demo_v3.
Proof.
rewrite scf_bodyE !build_fock_demo !rhf_iter_demo /= mulr1 /demo_v3.
by rewrite energy_demo diis_error_demo root_mean_square0.
Qed.

Lemma threshold_lt1 : 10%:R ^- 10 < 1 :> Q.
Proof. by rewrite invf_lt1 ?exprn_gt0 ?ltr0n // exprn_egt1 // ltr1n. Qed.

Lemma threshold_ge0 : 0 <= 10%:R ^- 10 :> Q.
Proof. by rewrite invr_ge0 exprn_ge0 // ler0n. Qed.

Lemma not_converged0 : ~~ converged demo_env demo_v0.
Proof. by rewrite /converged /= subr0 normr1 leNgt threshold_lt1. Qed.

Lemma not_converged1 : ~~ converged demo_env demo_v1.
Proof. by rewrite /converged /= sub0r normrN1 leNgt threshold_lt1. Qed.

Lemma not_converged2 : ~~ converged demo_env demo_v2.
Proof.
rewrite /converged /= subr0 normrN negb_and -ltNge; apply/orP; left.
by rewrite (lt_le_trans threshold_lt1) // ger0_norm ?ler0n // ler1n.
Qed.

Lemma converged3 : converged demo_env demo_v3.
Proof. by rewrite /converged /= subrr normr0 threshold_ge0. Qed.

Lemma iter_demo (m : int) :
  let body := scf_body eigh_diagonal (demo_options m) demo_env in
  [/\ iter 1 body demo_v0 = demo_v1, iter 2 body demo_v0 = demo_v2
    & iter 3 body demo_v0 = demo_v3].
Proof. by rewrite /= !(pass1_demo, pass2_demo, pass3_demo). Qed.

Lemma hf_finish_demo (aux : bool) :
  hf_finish id aux demo_env demo_v3
  = Ok (HfOutcome 3 false
          (if aux then EnergyAux (- 4%:R) demo_A (rv2 (- 2%:R) (- 1)) demo_G
           else Energy 2 (- 4%:R))).
Proof.
rewrite /hf_finish /= !enum_ordSl enum_ord0 /= !mxE /=.
have -> : (- 2%:R : Q) \in [:: - 1] = false.
  by rewrite inE eqr_opp (eqr_nat _ 2 1).
by rewrite /= mul0r ltNge divr_ge0 ?ler0n.
Qed.

Lemma sorted_eps_demo (i j : 'I_2) :
  (i <= j)%N ->
  (eigh_diagonal (demo_A^T *m (demo_H *m demo_A) + 0)).1 0 i
  <= (eigh_diagonal (demo_A^T *m (demo_H *m demo_A) + 0)).1 0 j.
Proof.
rewrite fock_transform_demo /eigh_diagonal /= !mxE.
case: i => [[|[|?]] ?] //=; case: j => [[|[|?]] ?] //= _.
by rewrite lerN2 ler1n.
Qed.

Lemma stops_demo :
  stops_after eigh_diagonal (demo_options 100) demo_env demo_v0 3
  /\ forall j, (j < 3)%N ->
       ~~ stops_after eigh_diagonal (demo_options 100) demo_env demo_v0 j.
Proof.
have [it1 it2 it3] := iter_demo 100.
split; first by rewrite /stops_after it3 converged3 orbT.
case=> [|[|[|j]]] // _; rewrite /stops_after ?it1 ?it2.
- exact: not_converged0.
- by rewrite (negPf not_converged1).
- by rewrite (negPf not_converged2).
Qed.

Lemma diis_error_as_specified_demo :
  diis_error_as_specified demo_env demo_H demo_D = mx2 0 (- 2%:R) 2%:R 0.
Proof.
rewrite /diis_error_as_specified /= /demo_H /demo_D /demo_S /demo_A mx2_tr.
by rewrite !mx2_mul mx2_opp mx2_add; apply: mx2_eq; ring.
Qed.

(** Claim C5 fails as stated: in the third pass of the worked example the
    solver sets [dRMS] to zero, while the residual the specification words,
    [A^T F D S - S D F A], has root mean square [sqrt 2]. *)
Lemma diis_error_counterexample :
  [/\ iter 2 (scf_body eigh_diagonal (demo_options 100) demo_env) demo_v0
        = demo_v2,
      (1 < iteration demo_v2)%N
    & dRMS (scf_body eigh_diagonal (demo_options 100) demo_env demo_v2)
      != root_mean_square
           (diis_error_as_specified demo_env
              (build_fock demo_env (D demo_v2)) (D demo_v2))].
Proof.
split=> //; first by have [] := iter_demo 100.
rewrite pass3_demo build_fock_demo /= diis_error_as_specified_demo.
rewrite root_mean_square2 eq_sym sqrtr_eq0 -ltNge divr_gt0 ?ltr0n //.
by rewrite expr0n /= add0r addr0 sqrrN addr_gt0 // exprn_gt0 // ltr0n.
Qed.


(** Claim C4 at work on the second pass of the worked example. *)
Lemma rhf_iter_spec_witness :
  [/\ forall i j : 'I_2, (i <= j)%N ->
        (eigh_diagonal (demo_A^T *m (demo_H *m demo_A) + 0)).1 0 i
        <= (eigh_diagonal (demo_A^T *m (demo_H *m demo_A) + 0)).1 0 j,
      0 <= env_ndocc demo_env <= 2%:Z,
      (rhf_iter eigh_diagonal demo_env demo_H demo_D).1.1.1
        = frobenius (demo_H + demo_H) demo_D
    & (slice_stop 2 (env_ndocc demo_env))%:Z = 1].
Proof.
have [-> _ cnt _ _] :=
  @rhf_iter_spec Q 2 eigh_diagonal demo_env demo_H demo_D sorted_eps_demo isT.
by split=> //; exact: sorted_eps_demo.
Defined.


Lemma scf_loop_f64S (R : rcfType) (arrays : Type)
    (pass : nat -> arrays -> f64 R * f64 R * arrays) (c : R) (maxit : int)
    (fuel : nat) (v : scf_vars_f64 R arrays) :
  scf_loop_f64 pass c maxit fuel.+1 v =
    if loop_test_f64 c v then
      if (iteration_f64 (scf_body_f64 pass v))%:Z == maxit
      then Some (scf_body_f64 pass v)
      else scf_loop_f64 pass c maxit fuel (scf_body_f64 pass v)
    else Some v.
Proof. by []. Qed.

(** The run on the scalars of [nan_pass]: three passes, then the test of the
    [while] is false. *)
Lemma nan_run (m : int) :
  m != 1 -> m != 2 -> m != 3 ->
  scf_loop_f64 nan_pass (10%:R ^- 10) m 4 nan_v0 = Some nan_v3.
Proof.
move=> /negPf m1 /negPf m2 /negPf m3.
have t0 : loop_test_f64 (10%:R ^- 10) nan_v0.
  by rewrite /loop_test_f64 /= subr0 normr1 threshold_lt1.
have b0 : scf_body_f64 nan_pass nan_v0
          = ScfVarsF64 1 (Num 0) (Num 1) (Num 1) tt.
  by rewrite /scf_body_f64 /= mulr1.
have t1 : loop_test_f64 (10%:R ^- 10)
            (ScfVarsF64 1 (Num 0) (Num 1) (Num 1) tt : scf_vars_f64 Q unit).
  by rewrite /loop_test_f64 /= sub0r normrN normr1 threshold_lt1.
have b1 : scf_body_f64 nan_pass (ScfVarsF64 1 (Num 0) (Num 1) (Num 1) tt)
          = ScfVarsF64 2 NaN (Num 0) (Num 1) tt.
  by rewrite /scf_body_f64 /= mulr1.
have t2 : loop_test_f64 (10%:R ^- 10)
            (ScfVarsF64 2 NaN (Num 0) (Num 1) tt : scf_vars_f64 Q unit).
  by rewrite /loop_test_f64 /= threshold_lt1.
have b2 : scf_body_f64 nan_pass (ScfVarsF64 2 NaN (Num 0) (Num 1) tt) = nan_v3.
  by [].
rewrite scf_loop_f64S t0 b0 [_ == m]eq_sym m1.
rewrite scf_loop_f64S t1 b1 [_ == m]eq_sym m2.
by rewrite scf_loop_f64S t2 b2 [_ == m]eq_sym m3.
Qed.



Lemma not_converged_before2 (j : nat) :
  (j < 2)%N ->
  ~~ converged demo_env
       (iter j (scf_body eigh_diagonal (demo_options 2) demo_env) demo_v0).
Proof.
have [it1 _ _] := iter_demo 2.
case: j => [|[|j]] // _; first exact: not_converged0.
by rewrite it1 not_converged1.
Qed.


(** The worked example converges in three passes. *)
Lemma demo_hf_converges :
  demo_hf 4 100 false = Some (Ok (HfOutcome 3 false (Energy 2 (- 4%:R)))).
Proof.
have [stop3 min3] := stops_demo; have [_ _ it3] := iter_demo 100.
rewrite /demo_hf /restricted_hartree_fock hf_setup_demo.
by rewrite (scf_loop_complete stop3 min3) // it3 /= hf_finish_demo.
Qed.

End DemoTheory.

(** * Further properties of the code *)

(** ** The integral primitives: evaluation, look-up and its failures *)

Lemma nth_allpairs_iota (T : Type) (x0 : T) (f : nat -> nat -> T)
    (a b i j : nat) :
  (i < a)%N -> (j < b)%N ->
  nth x0 [seq f i' j' | i' <- iota 0 a, j' <- iota 0 b] (i * b + j) = f i j.
Proof.
move=> lt_i lt_j.
rewrite -nth_drop -(@nth_take b) // -/(flatten _).
rewrite chunk_flatten ?size_map ?size_iota //.
  by apply/(all_nthP [::]) => n; rewrite size_map size_iota => lt_n;
     rewrite (nth_map 0%N) ?size_iota // size_map size_iota.
by rewrite (nth_map 0%N) ?size_iota // nth_iota // (nth_map 0%N) ?size_iota //
           nth_iota.
Qed.

Lemma np_sum_zip_add (u t : seq int) :
  size u = size t ->
  np_sum [seq x.1 + x.2 | x <- zip u t] = np_sum u + np_sum t.
Proof.
elim: u t => [|x u IH] [|y t] //= [eq_sz].
by rewrite /np_sum /= -/(np_sum _) IH // addrACA.
Qed.

(** [str] is one-to-one on the integers. *)
Lemma to_uint_nonnil (n : nat) : Nat.to_uint n <> Decimal.Nil.
Proof.
rewrite -[n]DecimalNat.Unsigned.of_to DecimalNat.Unsigned.to_of.
exact: DecimalFacts.unorm_nonnil.
Qed.

Lemma str_nat_inj (n n' : nat) :
  NilZero.string_of_uint (Nat.to_uint n)
  = NilZero.string_of_uint (Nat.to_uint n') ->
  n = n'.
Proof.
move=> eq_s; apply: DecimalNat.Unsigned.to_uint_inj.
have := NilZero.usu _ (@to_uint_nonnil n); rewrite eq_s.
by rewrite (NilZero.usu _ (@to_uint_nonnil n')) => -[].
Qed.

Lemma str_nat_not_minus (n : nat) (s : string) :
  NilZero.string_of_uint (Nat.to_uint n) <> String.append "-" s.
Proof. by case: (Nat.to_uint n). Qed.

Lemma str_int_inj : injective str_int.
Proof.
case=> n [] n' /=.
- by move/str_nat_inj->.
- by move/str_nat_not_minus.
- by move/esym/str_nat_not_minus.
- by case=> /str_nat_inj [->].
Qed.

Lemma append_inj (p s s' : string) :
  String.append p s = String.append p s' -> s = s'.
Proof. by elim: p => [|c p IH] //= [/IH]. Qed.

Section OeiMore.

Variable F : Type.
Variable session : libint_session F.
Variable get_deriv_vec_idx : deriv_vec -> result int.
Variable disk : option (h5file F).

Local Notation eval := (eval_k session).
Local Notation eval_deriv := (eval_k_deriv get_deriv_vec_idx disk).
Local Notation jvp_deriv := (primitive_jvps_deriv get_deriv_vec_idx disk).
Local Notation batcher := (primitive_batchers get_deriv_vec_idx disk).

Lemma eval_kE k g : eval k g = square_reshape (libint_flat session k).
Proof. by case: k. Qed.

(** Property X1.  The evaluation rule of a base primitive returns the flat
    output of the library as a [d] by [d] array whenever its length is
    [d * d]; it raises [ValueError] (from [reshape]) when the length is no
    perfect square; and it does not read its geometry argument. *)
Theorem impl_square_matrix k (g : geometry F) :
  let flat := libint_flat session k in
  [/\ forall d, size flat = (d * d)%N ->
        eval k g = Ok (NdArray [:: d; d] flat),
      (forall d, size flat <> (d * d)%N) -> eval k g = Raise ValueError
    & forall g', eval k g' = eval k g].
Proof.
move=> flat; split=> [d eq_sz|no_sq|g']; last by rewrite !eval_kE.
- rewrite eval_kE /square_reshape /reshape_nd /= -/flat eq_sz.
  by rewrite PeanoNat.Nat.sqrt_square muln1 eqxx.
- rewrite eval_kE /square_reshape /reshape_nd /= -/flat muln1.
  by case: eqP => // /esym/no_sq.
Qed.

(** Property X2.  When a derivative look-up returns an array [m], the store
    file exists, the index mapper returned an index [idx], the dataset named
    after the kind and the order [np.sum(deriv_vec)] exists with some shape
    [(a, b, c)], [idx] lies in [-c, c), [m] has the shape [(a, b)], and its
    cell [(i, j)] is the cell [(i, j, idx mod c)] of the dataset: a negative
    index counts from the end. *)
Theorem deriv_lookup_contract k g v (m : ndarray F) :
  eval_deriv k g v = Ok m ->
  exists f d idx,
    [/\ disk = Some f /\ get_deriv_vec_idx v = Ok idx,
        h5_lookup f (dataset_name k (np_sum v)) = Some d,
        - ((ds_shape d).2)%:Z <= idx < ((ds_shape d).2)%:Z,
        shape m = [:: (ds_shape d).1.1; (ds_shape d).1.2]
      & forall (x0 : F) (i j : nat),
          (i < (ds_shape d).1.1)%N -> (j < (ds_shape d).1.2)%N ->
          nth x0 (data m) (i * (ds_shape d).1.2 + j)
          = ds_cell d i j `|(idx %% ((ds_shape d).2)%:Z)%Z|%N].
Proof.
rewrite eval_k_derivE => /rbind_ok[idx eq_idx] /rbind_ok[f].
case: disk => [f'|] //= [->] /rbind_ok[d0].
rewrite /h5_getitem; case eq_d: (h5_lookup f _) => [d|] // [<-] eq_m.
exists f, d, idx; move: eq_m; rewrite /h5_slice.
case: d eq_d => [[[a b] c] cell] eq_d /=.
case: idx eq_idx => n eq_idx; case: ifP => // lt_n [<-] /=.
- split=> // [|x0 i j lt_i lt_j].
    by rewrite ltz_nat lt_n andbT (@le_trans _ _ 0) ?oppr_le0.
  by rewrite nth_allpairs_iota // modz_nat modn_small.
- split=> // [|x0 i j lt_i lt_j].
    by rewrite NegzE lerN2 lez_nat lt_n /=.
  rewrite nth_allpairs_iota // modNz_nat ?(leq_ltn_trans (leq0n n) lt_n) //.
  by rewrite modn_small // -addrA -opprD -PoszD add1n subzn.
Qed.

(** Property X3.  The failures of a derivative look-up, in the order the
    code meets them: an exception of the index mapper is the outcome,
    whatever the store holds; with an index in hand a missing store file
    raises [OSError]; and with the file and the dataset in hand an index
    outside [-c, c), [c] being the length of the third axis, is refused: no
    array is returned. *)
Theorem deriv_failures k (g : geometry F) v :
  [/\ forall e, get_deriv_vec_idx v = Raise e -> eval_deriv k g v = Raise e,
      forall idx, get_deriv_vec_idx v = Ok idx -> disk = None ->
        eval_deriv k g v = Raise OSError
    & forall idx f d,
        get_deriv_vec_idx v = Ok idx -> disk = Some f ->
        h5_lookup f (dataset_name k (np_sum v)) = Some d ->
        ~~ (- ((ds_shape d).2)%:Z <= idx < ((ds_shape d).2)%:Z) ->
        is_ok (eval_deriv k g v) = false].
Proof.
split=> [e|idx|idx f d]; rewrite eval_k_derivE => -> //=.
  by move=> ->.
move=> -> /=; rewrite /h5_getitem => -> /=.
rewrite /h5_slice; case: (ds_shape d) => [[a b] c] /=.
case: idx => n.
  by rewrite ltz_nat (@le_trans _ _ 0) ?oppr_le0 //= => /negbTE->.
by rewrite NegzE lerN2 lez_nat andbT => /negbTE->.
Qed.

(** Property X4.  The dataset names are one-to-one: two requests read the
    same dataset only if they are of one kind and of one order. *)
Theorem dataset_name_inj k k' (n n' : int) :
  dataset_name k n = dataset_name k' n' -> k = k' /\ n = n'.
Proof.
by case: k; case: k' => // /append_inj/str_int_inj->.
Qed.

(** Property X5.  The orders add up: when the JVP rule of a derivative
    primitive returns [(P, T)] on a derivative vector [u] and a tangent [t]
    of the same length, [T] is a slice of the dataset of the order
    [np.sum(u) + np.sum(t)], taken at the index the mapper gives for the
    cell-wise sum of [u] and [t]. *)
Theorem jvp_reads_next_order k g u t t' (P T : ndarray F) :
  size u = size t ->
  jvp_deriv k (g, u) (t, t') = Ok (P, T) ->
  exists f d idx,
    [/\ disk = Some f,
        get_deriv_vec_idx [seq x.1 + x.2 | x <- zip u t] = Ok idx,
        h5_lookup f (dataset_name k (np_sum u + np_sum t)) = Some d
      & h5_slice d idx = Ok T].
Proof.
move=> eq_sz; rewrite primitive_jvps_derivE vec_add_same_size //.
case/rbind_ok=> P' _ /= /rbind_ok[T' eq_T [_ eqT']]; move: eq_T.
rewrite {T'}eqT'.
rewrite eval_k_derivE np_sum_zip_add // => /rbind_ok[idx eq_idx] /rbind_ok[f].
case: disk => [f'|] //= [->] /rbind_ok[d0].
rewrite /h5_getitem; case eq_d: (h5_lookup f _) => [d|] // [<-] eq_m.
by exists f, d, idx.
Qed.

(** Property X6.  A batch fails like its first failing row: when the
    look-up of row [i] raises [e] and the look-ups of the rows before it
    return, the batching rule raises [e], and nothing is stacked. *)
Theorem batch_first_error k g (vs : seq deriv_vec) dims (i : nat) (e : exn) :
  (i < size vs)%N ->
  eval_deriv k g (nth [::] vs i) = Raise e ->
  (forall j, (j < i)%N -> is_ok (eval_deriv k g (nth [::] vs j))) ->
  batcher k (g, vs) dims = Raise e.
Proof.
move=> lt_i eq_e ok_j.
by rewrite primitive_batchersE (batch_loop_raise _ lt_i eq_e ok_j).
Qed.

Lemma eq_batch_loop (deriv deriv' : deriv_vec -> result (ndarray F))
    (vs : seq deriv_vec) (acc : seq (ndarray F)) :
  (forall v, deriv v = deriv' v) ->
  batch_loop deriv vs acc = batch_loop deriv' vs acc.
Proof.
move=> eq_d; elim: vs acc => [|v vs IH] acc //=.
by rewrite eq_d; case: (deriv' v) => //= m; rewrite IH.
Qed.

(** Property X22.  The batching rule reads neither [batch_dims] nor the
    content of the geometry: it always walks the derivative vectors along
    their first axis and hands the geometry over as it is, so two calls on
    the same rows have the same outcome. *)
Theorem batch_ignores_dims k g g' (vs : seq deriv_vec) dims dims' :
  batcher k (g, vs) dims = batcher k (g', vs) dims'.
Proof.
rewrite !primitive_batchersE (@eq_batch_loop _ (eval_deriv k g')) //.
by move=> v; rewrite !eval_k_derivE.
Qed.

End OeiMore.

(** Property X2 at work: the first-order overlap along the sixth
    coordinate, on the store of the examples. *)
Lemma deriv_lookup_contract_witness :
  let m := NdArray [:: 2; 2]%N [:: 1005; 1015; 1105; 1115]%N in
  eval_k_deriv demo_idx (Some demo_store) Overlap demo_geom (unit_vec 6 5)
    = Ok m
  /\ exists f d idx,
       [/\ Some demo_store = Some f /\ demo_idx (unit_vec 6 5) = Ok idx,
           h5_lookup f (dataset_name Overlap (np_sum (unit_vec 6 5))) = Some d,
           - ((ds_shape d).2)%:Z <= idx < ((ds_shape d).2)%:Z,
           shape m = [:: (ds_shape d).1.1; (ds_shape d).1.2]
         & forall (x0 : nat) (i j : nat),
             (i < (ds_shape d).1.1)%N -> (j < (ds_shape d).1.2)%N ->
             nth x0 (data m) (i * (ds_shape d).1.2 + j)
             = ds_cell d i j `|(idx %% ((ds_shape d).2)%:Z)%Z|%N].
Proof.
move=> m; split; first by [].
exact: (@deriv_lookup_contract nat demo_idx (Some demo_store) Overlap
          demo_geom (unit_vec 6 5) m erefl).
Defined.

(** Property X4 at work. *)
Lemma dataset_name_inj_witness :
  dataset_name Kinetic (np_sum (unit_vec 6 2)) = dataset_name Kinetic 1
  /\ (Kinetic = Kinetic /\ np_sum (unit_vec 6 2) = 1).
Proof.
split; first by [].
exact: (@dataset_name_inj Kinetic Kinetic (np_sum (unit_vec 6 2)) 1 erefl).
Defined.

(** Property X5 at work: the tangent of the first-order overlap is read from
    the second-order dataset. *)
Lemma jvp_reads_next_order_witness :
  size (unit_vec 6 2) = size (unit_vec 6 0)
  /\ exists f d idx,
       [/\ Some demo_store = Some f,
           demo_idx [seq x.1 + x.2 | x <- zip (unit_vec 6 2) (unit_vec 6 0)]
             = Ok idx,
           h5_lookup f (dataset_name Overlap
                          (np_sum (unit_vec 6 2) + np_sum (unit_vec 6 0)))
             = Some d
         & h5_slice d idx
           = Ok (NdArray [:: 2; 2]%N [:: 4000; 4010; 4100; 4110]%N)].
Proof.
split; first by [].
exact: (@jvp_reads_next_order nat demo_idx (Some demo_store) Overlap demo_geom
          (unit_vec 6 2) (unit_vec 6 0) [::] _ _ erefl jvp_deriv_demo).
Defined.

(** Property X6 at work: the second row of the batch asks for a dataset the
    store does not hold. *)
Lemma batch_first_error_witness :
  let vs : seq deriv_vec :=
    [:: unit_vec 6 1; [:: 2; 0; 0; 0; 0; 0]; unit_vec 6 0] in
  eval_k_deriv demo_idx (Some demo_store) Kinetic demo_geom (nth [::] vs 1)
    = Raise (KeyError "kinetic_deriv2")
  /\ primitive_batchers demo_idx (Some demo_store) Kinetic (demo_geom, vs)
       (None, Some 0%N) = Raise (KeyError "kinetic_deriv2").
Proof.
move=> vs; split; first by [].
apply: (@batch_first_error nat demo_idx (Some demo_store) Kinetic demo_geom vs
          (None, Some 0%N) 1) => //.
by case.
Defined.

(** ** [energy_utils.py]: the transformations *)

Section EnergyUtilsTheory.

Variable R : rcfType.

Lemma contract_comp (n m l : nat) (C : 'M[R]_(n, m)) (C' : 'M[R]_(m, l))
    (f : 'I_n -> R) (P : 'I_l) :
  \sum_a' C' a' P * (\sum_a C a a' * f a) = \sum_a (C *m C') a P * f a.
Proof.
under eq_bigr => a' _ do rewrite big_distrr /=.
rewrite exchange_big /=; apply: eq_bigr => a _.
rewrite mxE big_distrl /=; apply: eq_bigr => a' _.
by rewrite mulrCA mulrA.
Qed.

Lemma contract_swap (n m k l : nat) (C1 : 'M[R]_(n, m)) (C2 : 'M[R]_(k, l))
    (F : 'I_n -> 'I_k -> R) (P : 'I_m) (Q : 'I_l) :
  \sum_x C1 x P * (\sum_y C2 y Q * F x y)
  = \sum_y C2 y Q * (\sum_x C1 x P * F x y).
Proof.
under eq_bigr => x _ do rewrite big_distrr /=.
rewrite exchange_big /=; apply: eq_bigr => y _.
by rewrite big_distrr /=; apply: eq_bigr => x _; rewrite mulrCA.
Qed.

Lemma contract_one (n : nat) (f : 'I_n -> R) (P : 'I_n) :
  \sum_a (1%:M : 'M[R]_n) a P * f a = f P.
Proof.
rewrite (bigD1 P) //= mxE eqxx mul1r big1 ?addr0 // => a ne_a.
by rewrite mxE (negPf ne_a) mul0r.
Qed.

(** Property X7.  The four passes of [transform] compute the same array as
    the one-shot contraction of [old_tei_transformation], cell by cell
    (over exact scalars), and [partial_tei_transformation] with one matrix
    for the four axes agrees with both. *)
Theorem tei_transformation_einsum (n m : nat) (G : array4 R n n n n)
    (C : 'M[R]_(n, m)) (P Q R0 S : 'I_m) :
  tei_transformation G C P Q R0 S = old_tei_transformation G C P Q R0 S
  /\ partial_tei_transformation G C C C C P Q R0 S
     = tei_transformation G C P Q R0 S.
Proof.
have eq_old : tei_transformation G C P Q R0 S
              = old_tei_transformation G C P Q R0 S.
  rewrite /tei_transformation /transform /old_tei_transformation.
  apply: eq_bigr => p _; rewrite big_distrr /=.
  apply: eq_bigr => q _; rewrite mulrA big_distrr /=.
  apply: eq_bigr => r _; rewrite mulrA big_distrr /=.
  by apply: eq_bigr => s _; rewrite !mulrA -!(mulrC (G _ _ _ _)) !mulrA.
by split.
Qed.

(** Property X8.  [tei_transformation] follows the product of the
    coefficient matrices: the identity matrix leaves the array as it is, and
    transforming by [C] and then by [C'] is transforming by [C *m C']. *)
Theorem tei_transformation_compose (n m l : nat) (G : array4 R n n n n)
    (C : 'M[R]_(n, m)) (C' : 'M[R]_(m, l)) :
  (forall P Q R0 S, tei_transformation G 1%:M P Q R0 S = G P Q R0 S)
  /\ (forall P Q R0 S,
        tei_transformation (tei_transformation G C) C' P Q R0 S
        = tei_transformation G (C *m C') P Q R0 S).
Proof.
split=> P Q R0 S.
  rewrite /tei_transformation /transform contract_one.
  by rewrite contract_one contract_one contract_one.
rewrite /tei_transformation /transform.
rewrite [LHS]contract_swap.
under [LHS]eq_bigr => b' _ do rewrite contract_swap.
under [LHS]eq_bigr => b' _ do under eq_bigr => c' _ do rewrite contract_swap.
under [LHS]eq_bigr => b' _ do under eq_bigr => c' _ do
  under eq_bigr => s' _ do rewrite contract_comp.
rewrite [LHS]contract_swap.
under [LHS]eq_bigr => c' _ do rewrite contract_swap.
under [LHS]eq_bigr => c' _ do under eq_bigr => s' _ do rewrite contract_swap.
under [LHS]eq_bigr => c' _ do under eq_bigr => s' _ do
  under eq_bigr => a _ do rewrite contract_comp.
rewrite [LHS]contract_swap.
under [LHS]eq_bigr => s' _ do rewrite contract_swap.
under [LHS]eq_bigr => s' _ do under eq_bigr => a _ do rewrite contract_swap.
under [LHS]eq_bigr => s' _ do under eq_bigr => a _ do
  under eq_bigr => b _ do rewrite contract_comp.
rewrite [LHS]contract_swap.
under [LHS]eq_bigr => a _ do rewrite contract_swap.
under [LHS]eq_bigr => a _ do under eq_bigr => b _ do rewrite contract_swap.
under [LHS]eq_bigr => a _ do under eq_bigr => b _ do
  under eq_bigr => c _ do rewrite contract_comp.
by [].
Qed.

(** Property X23.  [tmp_transform] is [transform] on the array whose first
    axis has been moved last; it leaves the array as it is under the
    identity matrix, and two passes of it, by [C] and then by [C'], are one
    pass by [C *m C']. *)
Theorem tmp_transform_compose (a b c d m l : nat) (G : array4 R a b c d)
    (C : 'M[R]_(a, m)) (C' : 'M[R]_(m, l)) :
  [/\ forall P q r s,
        tmp_transform G C P q r s
        = transform C (fun q r s p => G p q r s) P q r s,
      forall p q r s, tmp_transform G 1%:M p q r s = G p q r s
    & forall P q r s,
        tmp_transform (tmp_transform G C) C' P q r s
        = tmp_transform G (C *m C') P q r s].
Proof.
split=> [P q r s|p q r s|P q r s] //.
  by rewrite /tmp_transform (contract_one (fun p => G p q r s)).
by rewrite /tmp_transform (contract_comp C C' (fun p => G p q r s)).
Qed.

(** *** [nuclear_repulsion] *)

Lemma nuclear_repulsion_innerE (geom : seq (seq R)) (Zs : seq int)
    (i : nat) (js : seq nat) (nuc : R) :
  (i < size geom)%N -> all (fun j => (j < size geom)%N) js ->
  nuclear_repulsion_inner geom Zs i js nuc
  = Ok (nuc + \sum_(j <- js) pair_repulsion geom Zs i j).
Proof.
move=> lt_i; elim: js nuc => [|j js IH] nuc /=.
  by rewrite big_nil addr0.
case/andP=> lt_j lt_js; rewrite /row_get lt_i lt_j /= IH //.
by rewrite big_cons addrA.
Qed.

Lemma nuclear_repulsion_outerE (geom : seq (seq R)) (Zs : seq int)
    (rows : seq nat) (nuc : R) :
  all (fun i => (i < size geom)%N) rows ->
  nuclear_repulsion_outer geom Zs rows nuc
  = Ok (nuc + \sum_(i <- rows) \sum_(j <- iota 0 i)
                pair_repulsion geom Zs i j).
Proof.
elim: rows nuc => [|i rows IH] nuc /=; first by rewrite big_nil addr0.
case/andP=> lt_i lt_rows; rewrite nuclear_repulsion_innerE //=.
  by apply/allP=> j; rewrite mem_iota add0n => /andP[_ /ltn_trans]; apply.
by rewrite IH // big_cons addrA.
Qed.

(** Property X9.  On a geometry with a row for every charge, the two loops
    of [nuclear_repulsion] return the sum over the pairs [j < i] of
    [Z_i Z_j / |r_i - r_j|]; no pair is counted twice and no atom is paired
    with itself. *)
Theorem nuclear_repulsion_sum (geom : seq (seq R)) (Zs : seq int) :
  (size Zs <= size geom)%N ->
  nuclear_repulsion geom Zs
  = Ok (\sum_(i <- iota 0 (size Zs)) \sum_(j <- iota 0 i)
          (nth 0 Zs i)%:~R * (nth 0 Zs j)%:~R
          / norm_diff (nth [::] geom i) (nth [::] geom j)).
Proof.
move=> le_sz; rewrite /nuclear_repulsion nuclear_repulsion_outerE ?add0r //.
by apply/allP=> i; rewrite mem_iota add0n => /andP[_ /leq_trans]; apply.
Qed.

Lemma norm_diff_translate (t x y : seq R) :
  size x = size t -> size y = size t ->
  norm_diff [seq p.1 + p.2 | p <- zip x t] [seq p.1 + p.2 | p <- zip y t]
  = norm_diff x y.
Proof.
rewrite /norm_diff => sx sy; congr (Num.sqrt _).
elim: t x y sx sy => [|c t IH] [|a x] [|b y] //= [sx] [sy].
by rewrite IH // opprD addrACA subrr addr0.
Qed.

Lemma nth_translate (t : seq R) (geom : seq (seq R)) (i : nat) :
  (i < size geom)%N ->
  nth [::] (translate t geom) i
  = [seq p.1 + p.2 | p <- zip (nth [::] geom i) t].
Proof. by move=> lt_i; rewrite (nth_map [::]). Qed.

(** Property X10.  The nuclear repulsion energy only reads differences of
    positions: moving every atom by one vector [t] (of the length of the
    rows) changes neither the value nor the outcome. *)
Theorem nuclear_repulsion_translation (t : seq R) (geom : seq (seq R))
    (Zs : seq int) :
  all (fun row => size row == size t) geom ->
  nuclear_repulsion (translate t geom) Zs = nuclear_repulsion geom Zs.
Proof.
move=> sz_rows.
have sz_row i : (i < size geom)%N -> size (nth [::] geom i) = size t.
  by move=> lt_i; apply/eqP; move/(all_nthP [::]): sz_rows; apply.
have inner i js nuc :
  nuclear_repulsion_inner (translate t geom) Zs i js nuc
  = nuclear_repulsion_inner geom Zs i js nuc.
  elim: js nuc => [|j js IH] nuc //=.
  rewrite /row_get size_map; case: ifP => //= lt_i; case: ifP => //= lt_j.
  by rewrite !nth_translate // norm_diff_translate ?sz_row.
rewrite /nuclear_repulsion; move: (iota 0 _) 0 => rows.
by elim: rows => [|i rows IH] nuc //=; rewrite inner;
   case: nuclear_repulsion_inner.
Qed.

(** *** [symmetric_orthogonalization] *)

Section SymmetricOrthogonalization.

Variable nbf : nat.
Variable linalg_eigh : 'M[R]_nbf -> 'rV[R]_nbf * 'M[R]_nbf.

Local Notation sym_orth := (symmetric_orthogonalization linalg_eigh).

Lemma masked_gram (P : pred 'I_nbf) (V : 'M[R]_nbf) (w : 'rV[R]_nbf)
    (i j : 'I_nbf) :
  let val : 'rV[R]_#|P| := \row_k (1 / Num.sqrt (w 0 (enum_val k))) in
  let vec : 'M[R]_(nbf, #|P|) := \matrix_(i, k) V i (enum_val k) in
  (vec *m diag_mx val *m vec^T) i j
  = \sum_(k | P k) V i k * (1 / Num.sqrt (w 0 k)) * V j k.
Proof.
move=> val vec; rewrite mul_mx_diag mxE.
rewrite [RHS](big_enum_val (A := P)).
by apply: eq_bigr => k _; rewrite !mxE.
Qed.

Lemma symmetric_orthogonalization_cells (S : 'M[R]_nbf) :
  (0 < nbf)%N ->
  exists2 A, sym_orth S = Ok A
    & forall i j,
        A i j = \sum_(k | above_cutoff (linalg_eigh S).1 k)
                  (linalg_eigh S).2 i k
                  * (1 / Num.sqrt ((linalg_eigh S).1 0 k))
                  * (linalg_eigh S).2 j k.
Proof.
rewrite /symmetric_orthogonalization lt0n => /negbTE->.
case: (linalg_eigh S) => w V /=; eexists; first by [].
by move=> i j; rewrite masked_gram.
Qed.

(** Property X11.  On a basis that is not empty
    [symmetric_orthogonalization] returns, whatever [eigh] hands back; the
    matrix it returns is symmetric, and its cell [(i, j)] is the sum of
    [V i k * V j k / sqrt (w k)] over the eigenvalues [w k] that pass the
    cut-off, [V] being the eigenvectors: an eigenvalue below the cut-off
    adds nothing. *)
Theorem symmetric_orthogonalization_symmetric (S : 'M[R]_nbf) :
  (0 < nbf)%N ->
  exists A,
    [/\ sym_orth S = Ok A, A^T = A
      & forall i j,
          A i j = \sum_(k | above_cutoff (linalg_eigh S).1 k)
                    (linalg_eigh S).2 i k
                    * (1 / Num.sqrt ((linalg_eigh S).1 0 k))
                    * (linalg_eigh S).2 j k].
Proof.
case/(symmetric_orthogonalization_cells S) => A eq_A cells.
exists A; split=> //; apply/matrixP=> i j; rewrite mxE !cells.
by apply: eq_bigr => k _; rewrite -mulrA mulrC [X in X * _]mulrC.
Qed.

(** Property X12.  Let [eigh] return on [S] positive eigenvalues [w] that
    all pass the cut-off, and orthonormal eigenvectors [V] with
    [S = V diag(w) V^T].  Then the matrix [A] that
    [symmetric_orthogonalization] returns orthogonalises [S] from both
    sides, [A S A = 1], and is an inverse square root of it,
    [A A S = 1]. *)
Theorem symmetric_orthogonalization_spec (S : 'M[R]_nbf) :
  let w := (linalg_eigh S).1 in
  let V := (linalg_eigh S).2 in
  (0 < nbf)%N ->
  V^T *m V = 1%:M -> S = V *m diag_mx w *m V^T ->
  (forall i, 0 < w 0 i) -> (forall i, above_cutoff w i) ->
  exists A,
    [/\ sym_orth S = Ok A, A *m S *m A = 1%:M & A *m A *m S = 1%:M].
Proof.
move=> w V nbf_gt0 VtV eqS w_gt0 all_above.
have [A -> eqA] := symmetric_orthogonalization_cells S nbf_gt0.
exists A; pose w' : 'rV[R]_nbf := \row_k (1 / Num.sqrt (w 0 k)).
have {eqA} -> : A = V *m diag_mx w' *m V^T.
  apply/matrixP=> i j; rewrite eqA mul_mx_diag mxE.
  rewrite (eq_bigl xpredT); first by move=> k; apply: all_above.
  by apply: eq_bigr => k _; rewrite !mxE.
have VVt : V *m V^T = 1%:M by exact: mulmx1C.
have dd : diag_mx w' *m diag_mx w *m diag_mx w' = 1%:M.
  rewrite !mulmx_diag -(diag_const_mx nbf); congr diag_mx.
  apply/rowP=> k; rewrite !mxE /= !div1r mulrAC -invfM.
  by rewrite -expr2 sqr_sqrtr ?mulVf ?gt_eqF // ltW.
have dd' : diag_mx w' *m diag_mx w' *m diag_mx w = 1%:M.
  rewrite !mulmx_diag -(diag_const_mx nbf); congr diag_mx.
  apply/rowP=> k; rewrite !mxE /= !div1r -invfM.
  by rewrite -expr2 sqr_sqrtr ?mulVf ?gt_eqF // ltW.
split=> //; rewrite eqS.
  rewrite !mulmxA -(mulmxA _ V^T V) VtV mulmx1.
  rewrite -(mulmxA _ V^T V) VtV mulmx1.
  by rewrite -2!(mulmxA V) dd mulmx1.
rewrite !mulmxA -(mulmxA _ V^T V) VtV mulmx1.
rewrite -(mulmxA _ V^T V) VtV mulmx1.
by rewrite -2!(mulmxA V) dd' mulmx1.
Qed.

End SymmetricOrthogonalization.

End EnergyUtilsTheory.

(** *** [cartesian_product] *)

Section CartesianProductTheory.

Variable F : Type.

Local Notation zipcons row acc := [seq p.1 :: p.2 | p <- zip row acc].
Local Notation grids arrays := [seq data g | g <- meshgrid_ij arrays].
Local Notation tile n d := (flatten (nseq n d)).

Lemma flatten_nseq_mul (T : Type) (n b : nat) (s : seq T) :
  flatten (nseq (n * b) s) = flatten (nseq n (flatten (nseq b s))).
Proof.
elim: n => [|n IH] //=.
by rewrite mulSn nseqD flatten_cat IH.
Qed.

Lemma nseq_mul (T : Type) (n b : nat) (x : T) :
  nseq (n * b) x = flatten (nseq n (nseq b x)).
Proof. by elim: n => [|n IH] //=; rewrite mulSn nseqD IH. Qed.

Lemma size_tile (T : Type) (n : nat) (s : seq T) :
  size (flatten (nseq n s)) = (n * size s)%N.
Proof. by elim: n => [|n IH] //=; rewrite size_cat IH mulSn. Qed.

Lemma size_lex_tuples (arrays : seq (seq F)) :
  size (lex_tuples arrays) = numel [seq size a | a <- arrays].
Proof.
by elim: arrays => [|a arrays IH] //=; rewrite size_allpairs IH.
Qed.

(** The cells of the grids, array by array. *)
Lemma meshgrid_cons (a : seq F) (rest : seq (seq F)) :
  grids (a :: rest)
  = flatten [seq nseq (numel [seq size b | b <- rest]) x | x <- a]
    :: [seq tile (size a) d | d <- grids rest].
Proof.
rewrite /meshgrid_ij /= drop0 cats0; congr (_ :: _).
rewrite -[iota 1 _]/(iota (1 + 0) _) iotaDl -!map_comp; apply: eq_map => m /=.
by rewrite flatten_nseq_mul.
Qed.

Lemma all_size_tile (n N : nat) (ds : seq (seq F)) :
  all (fun d => size d == N) ds ->
  all (fun d => size d == (n * N)%N) [seq tile n d | d <- ds].
Proof.
elim: ds => [|d ds IH] //= /andP[/eqP sz_d /IH->].
by rewrite size_tile sz_d eqxx.
Qed.

Lemma size_grids (arrays : seq (seq F)) :
  all (fun d => size d == numel [seq size a | a <- arrays]) (grids arrays).
Proof.
elim: arrays => [|a rest IH] //; rewrite meshgrid_cons /= all_size_tile //.
rewrite andbT size_flatten /seq.shape -map_comp.
by elim: (a) => [|x s IHs] //=; rewrite size_nseq mulSn eqn_add2l.
Qed.

Lemma size_columns (N : nat) (ds : seq (seq F)) :
  all (fun d => size d == N) ds -> size (columns_of N ds) = N.
Proof.
elim: ds => [|d ds IH] /=; first by rewrite size_nseq.
by case/andP=> /eqP sz_d /IH sz; rewrite size_map size_zip sz sz_d minnn.
Qed.

Lemma zipcons_cat (d X : seq F) (T Y : seq (seq F)) :
  size d = size T ->
  zipcons (d ++ X) (T ++ Y) = zipcons d T ++ zipcons X Y.
Proof. by move=> eq_sz; rewrite zip_cat // map_cat. Qed.

Lemma zipcons_tile (n : nat) (d : seq F) (T : seq (seq F)) :
  size d = size T ->
  zipcons (tile n d) (tile n T) = tile n (zipcons d T).
Proof.
by move=> eq_sz; elim: n => [|n IH] //=; rewrite zipcons_cat // IH.
Qed.

Lemma columns_tile (n N : nat) (ds : seq (seq F)) :
  all (fun d => size d == N) ds ->
  columns_of (n * N) [seq tile n d | d <- ds] = tile n (columns_of N ds).
Proof.
elim: ds => [|d ds IH] /=; first by rewrite nseq_mul.
case/andP=> /eqP sz_d sz_ds; rewrite IH // zipcons_tile //.
by rewrite size_columns.
Qed.

Lemma zipcons_nseq (x : F) (T : seq (seq F)) :
  zipcons (nseq (size T) x) T = [seq x :: t | t <- T].
Proof. by elim: T => [|t T IH] //=; rewrite IH. Qed.

Lemma zipcons_head (a : seq F) (T : seq (seq F)) :
  zipcons (flatten [seq nseq (size T) x | x <- a]) (tile (size a) T)
  = [seq x :: t | x <- a, t <- T].
Proof.
elim: a => [|x a IH] //=.
by rewrite zipcons_cat ?size_nseq // zipcons_nseq IH.
Qed.

Lemma columns_grids (arrays : seq (seq F)) :
  columns_of (numel [seq size a | a <- arrays]) (grids arrays)
  = lex_tuples arrays.
Proof.
elim: arrays => [|a rest IH] //; rewrite meshgrid_cons /=.
rewrite columns_tile ?size_grids // IH -size_lex_tuples.
exact: zipcons_head.
Qed.

Lemma shape_grids (arrays : seq (seq F)) :
  seq.shape (grids arrays)
  = nseq (size arrays) (numel [seq size a | a <- arrays]).
Proof.
have := size_grids arrays.
have -> : size arrays = size (grids arrays).
  by rewrite /meshgrid_ij !size_map size_iota.
move: (numel _) => N; elim: (grids arrays) => [|d ds IH] //=.
by case/andP=> /eqP-> /IH->.
Qed.

Lemma rbindE (A B : Type) (a : A) (k : A -> result B) :
  (x <- Ok a ;; k x) = k a.
Proof. by []. Qed.

Lemma grid_cells (arrays : seq (seq F)) :
  data (asarray (meshgrid_ij arrays)) = flatten (grids arrays).
Proof. by []. Qed.

Lemma size_grid_cells (arrays : seq (seq F)) :
  size (flatten (grids arrays))
  = (size arrays * numel [seq size a | a <- arrays])%N.
Proof. by rewrite size_flatten shape_grids sumn_nseq mulnC. Qed.

Lemma reshape_grid (arrays : seq (seq F)) :
  (0 < size arrays)%N ->
  reshape_infer (asarray (meshgrid_ij arrays)) (size arrays)
  = Ok (NdArray [:: size arrays; numel [seq size a | a <- arrays]]
                (flatten (grids arrays))).
Proof.
move=> k_gt0.
by rewrite /reshape_infer grid_cells size_grid_cells k_gt0 modnMr eqxx mulKn.
Qed.

Lemma transpose_grid (arrays : seq (seq F)) :
  transpose_2d (NdArray [:: size arrays; numel [seq size a | a <- arrays]]
                        (flatten (grids arrays)))
  = NdArray [:: numel [seq size a | a <- arrays]; size arrays]
            (flatten (lex_tuples arrays)).
Proof.
rewrite /transpose_2d /rows_of /= -shape_grids flattenK.
by rewrite columns_grids.
Qed.

(** Property X13.  On one or more one-dimensional arrays
    [cartesian_product] returns, and the array it returns has one row for
    every choice of one cell per array and one column per array: its shape
    is [(n1 * ... * nk, k)] and its rows are the tuples in lexicographic
    order, the last array running fastest. *)
Theorem cartesian_product_spec (a : seq F) (rest : seq (seq F)) :
  let arrays := a :: rest in
  cartesian_product a rest
  = Ok (NdArray [:: numel [seq size b | b <- arrays]; size arrays]
                (flatten (lex_tuples arrays))).
Proof.
move=> arrays; rewrite /cartesian_product -/arrays reshape_grid //.
by rewrite rbindE transpose_grid.
Qed.

End CartesianProductTheory.

(** The product of a pair and a triple. *)
Example cartesian_product_demo :
  cartesian_product [:: 1; 2]%N [:: [:: 3; 4; 5]%N]
  = Ok (NdArray [:: 6; 2]%N
          [:: 1; 3; 1; 4; 1; 5; 2; 3; 2; 4; 2; 5]%N).
Proof. by []. Qed.

(** ** [hartree_fock.py]: the first passes, the outcome, the density *)

Section SolverMore.

Variable R : rcfType.
Variable nbf : nat.
Variable linalg_cholesky : 'M[R]_nbf -> 'M[R]_nbf.
Variable linalg_inv : 'M[R]_nbf -> 'M[R]_nbf.
Variable linalg_eigh : 'M[R]_nbf -> 'rV[R]_nbf * 'M[R]_nbf.
Variable round6 : R -> R.
Variable compute_integrals :
  seq R -> string -> string -> seq int -> int -> nat -> hf_options R ->
  result (integrals R nbf).

Local Notation setup :=
  (hf_setup linalg_cholesky linalg_inv compute_integrals).
Local Notation run_hf :=
  (restricted_hartree_fock linalg_cholesky linalg_inv linalg_eigh round6
     compute_integrals).
Local Notation body options env := (scf_body linalg_eigh options env).

Lemma hf_convergence_lt1 (b : bool) : hf_convergence R b < 1.
Proof.
by case: b; rewrite /hf_convergence invf_lt1 ?exprn_gt0 ?ltr0n //
                    exprn_egt1 // ltr1n.
Qed.

Lemma jk_build_zero (G : tensor4 R nbf) : jk_build G 0 = 0.
Proof.
apply/matrixP=> p q; rewrite !mxE big1 // => r _; rewrite big1 // => s _.
by rewrite mxE mulr0.
Qed.

Lemma build_fock_zero (env : scf_env R nbf) : build_fock env 0 = env_H env.
Proof. by rewrite /build_fock !jk_build_zero scaler0 subr0 addr0. Qed.

Lemma einsum_zero (X : 'M[R]_nbf) : einsum_pq_pq X 0 = 0.
Proof.
rewrite /einsum_pq_pq big1 // => p _; rewrite big1 // => q _.
by rewrite mxE mulr0.
Qed.

Lemma damp_density_zero (options : hf_options R) (v : scf_vars R nbf) :
  D v = 0 -> Dold v = 0 -> damp_density options v = (0, 0).
Proof.
rewrite /damp_density => -> ->.
by case: ifP => // _; case: ifP => // _; rewrite !(scaler0, addr0).
Qed.

(** [dRMS] keeps its initial value through the first two passes. *)
Lemma dRMS_early (options : hf_options R) (env : scf_env R nbf)
    (v0 : scf_vars R nbf) (k : nat) :
  iteration v0 = 0%N -> (k < 3)%N ->
  dRMS (iter k (body options env) v0) = dRMS v0.
Proof.
move=> it0; elim: k => [|k IH] // lt_k.
have le1 : (k <= 1)%N by exact: lt_k.
rewrite iterS scf_bodyE /= iteration_iter it0 add0n ltnNge le1 /=.
by rewrite IH // ltnW.
Qed.

Lemma early_not_converged (options : hf_options R) (env : scf_env R nbf)
    (v0 : scf_vars R nbf) (k : nat) :
  iteration v0 = 0%N -> dRMS v0 = 1 -> env_convergence env < 1 ->
  (k < 3)%N -> ~~ converged env (iter k (body options env) v0).
Proof.
move=> it0 d0 lt1 lt_k.
by rewrite /converged dRMS_early // d0 [1 <= _]leNgt lt1 andbF.
Qed.

Lemma setup_start geom bn xp Zs charge options d dm env v0 :
  setup geom bn xp Zs charge options d dm = Ok (env, v0) ->
  [/\ iteration v0 = 0%N, dRMS v0 = 1, env_convergence env < 1
    & v0 = ScfVars 0 1 0 (if dm is Some D0 then D0 else 0)
                   (if dm is Some D0 then D0 else 0) 1 None].
Proof.
case/hf_setupP=> ints [rows [Enuc [_ _ -> ->]]] /=.
by split=> //; apply: hf_convergence_lt1.
Qed.

(** Property X14.  Without a density guess the first pass works on the zero
    density, damped or not: its Fock matrix is the core Hamiltonian [H], the
    energy it binds is [0] (and [E_old] is the initial [1.0]), [dRMS] keeps
    its initial [1.0], and [C] and [eps] come from the eigendecomposition of
    [A^T H A + shift]. *)
Theorem first_pass_core_guess geom bn xp Zs charge options d env v0 :
  setup geom bn xp Zs charge options d None = Ok (env, v0) ->
  let Fp := (env_A env)^T *m (env_H env *m env_A env) + env_shift env in
  let v1 := body options env v0 in
  [/\ build_fock env (damp_density options v0).1 = env_H env,
      E_scf v1 = 0 /\ E_old v1 = 1,
      dRMS v1 = 1
    & C_eps v1
      = Some (env_A env *m (linalg_eigh Fp).2, (linalg_eigh Fp).1)].
Proof.
case/setup_start=> _ _ _ -> Fp v1.
have dz : damp_density options (ScfVars 0 1 0 0 0 1 None : scf_vars R nbf)
          = (0, 0).
  by apply: damp_density_zero.
rewrite /v1 scf_bodyE /= dz /= build_fock_zero mulr1 /rhf_iter -/Fp.
by case: (linalg_eigh Fp) => eps C2 /=; rewrite einsum_zero.
Qed.

(** Property X15.  Once the statements before the loop have run, a call
    that comes back has made at least one pass, so that [eps] is bound when
    the degeneracy test reads it: on an empty basis the outcome is the
    [ZeroDivisionError] of [ndegen_orbs / nbf], and otherwise a value is
    returned, whose energy is the [E_scf] of the last pass made, with or
    without the auxiliary data. *)
Theorem outcome_after_setup geom bn xp Zs charge options d aux dm env v0
    (fuel : nat) (r : result (hf_outcome R nbf)) :
  setup geom bn xp Zs charge options d dm = Ok (env, v0) ->
  run_hf fuel geom bn xp Zs charge options d aux dm = Some r ->
  if nbf == 0%N then r = Raise ZeroDivisionError
  else exists o,
    [/\ r = Ok o, (0 < printed_iterations o)%N
      & hf_energy (returned o)
        = E_scf (iter (printed_iterations o) (body options env) v0)].
Proof.
move=> eq_setup; rewrite /restricted_hartree_fock eq_setup.
have [it0 d0 lt1 _] := setup_start eq_setup.
case eq_loop: (scf_loop _ _ _ _ _) => [vf|] //= [<-].
have [k [_ eq_vf stop_k _]] := scf_loop_sound eq_loop.
case: k eq_vf stop_k => [|k] eq_vf.
  have /negPf /= := @early_not_converged options env v0 0 it0 d0 lt1 isT.
  by rewrite stops0 => ->.
move=> _; have it_vf : iteration vf = k.+1.
  by rewrite eq_vf iteration_iter it0.
have [C [eps ceps]] : exists C eps, C_eps vf = Some (C, eps).
  by rewrite eq_vf iterS scf_bodyE /=; eexists; eexists.
rewrite /hf_finish ceps.
case: (nbf == 0%N) => //; eexists; split; first by reflexivity.
  by rewrite /= it_vf.
by rewrite /= it_vf -eq_vf; case: (aux).
Qed.

(** Property X16.  Convergence is never met before the third pass: [dRMS]
    is first computed in the third pass and is [1.0] until then, so a loop
    that ends after fewer than three passes has ended on the iteration
    cap. *)
Theorem three_passes_before_convergence geom bn xp Zs charge options d dm
    env v0 (fuel : nat) (vf : scf_vars R nbf) :
  setup geom bn xp Zs charge options d dm = Ok (env, v0) ->
  scf_loop linalg_eigh options env fuel v0 = Some vf ->
  (iteration vf < 3)%N ->
  (0 < iteration vf)%N /\ (iteration vf)%:Z = maxit options.
Proof.
move=> /setup_start[it0 d0 lt1 _] /scf_loop_sound[k [_ -> stop_k _]].
rewrite iteration_iter it0 add0n => lt_k.
move: stop_k; rewrite /stops_after iteration_iter it0 add0n.
rewrite (negPf (early_not_converged options it0 d0 lt1 lt_k)) orbF.
by case/andP=> -> /eqP.
Qed.

Lemma columns_upto_mul (k : int) (C : 'M[R]_nbf) :
  columns_upto k C = C *m columns_upto k 1%:M.
Proof.
apply/matrixP=> i j; rewrite !mxE.
rewrite (bigD1 (widen_ord (slice_stop_le nbf k) j)) //= !mxE eqxx mulr1.
rewrite big1 ?addr0 // => l ne_l.
by rewrite !mxE (negPf ne_l) mulr0.
Qed.

Lemma columns_upto_orthonormal (k : int) :
  (columns_upto k (1%:M : 'M[R]_nbf))^T *m columns_upto k 1%:M = 1%:M.
Proof.
apply/matrixP=> i j; rewrite !mxE.
rewrite (bigD1 (widen_ord (slice_stop_le nbf k) i)) //= !mxE eqxx mul1r.
rewrite big1 ?addr0.
  by move=> l ne_l; rewrite !mxE (negPf ne_l) mul0r.
by rewrite -!val_eqE.
Qed.


(** Property X19.  The spectral shift.  Switched off it is the zero matrix.
    Switched on it is diagonal, its diagonal lies between [0] and [1e-8] and
    increases strictly with the index, it starts at [0], and on two or more
    basis functions it ends at [1e-8]. *)
Theorem spectral_shift_profile :
  [/\ hf_shift R nbf false = 0,
      forall i j : 'I_nbf, i != j -> hf_shift R nbf true i j = 0,
      forall i : 'I_nbf, 0 <= hf_shift R nbf true i i <= 10%:R ^- 8,
      forall i j : 'I_nbf, (i < j)%N ->
        hf_shift R nbf true i i < hf_shift R nbf true j j
    & forall i : 'I_nbf,
        ((i : nat) = 0%N -> hf_shift R nbf true i i = 0)
        /\ ((i : nat) = nbf.-1 -> (1 < nbf)%N ->
            hf_shift R nbf true i i = 10%:R ^- 8)].
Proof.
have c_gt0 : 0 < 10%:R ^- 8 :> R by rewrite invr_gt0 exprn_gt0 // ltr0n.
have diagE (i : 'I_nbf) :
  hf_shift R nbf true i i = i%:R / (nbf.-1)%:R * 10%:R ^- 8.
  by rewrite /hf_shift !mxE eqxx mulr1n.
have le_i (i : 'I_nbf) : (i <= nbf.-1)%N.
  by rewrite -ltnS prednK // (leq_ltn_trans _ (ltn_ord i)).
split=> // [i j ne_ij|i|i j lt_ij|i].
- by rewrite /hf_shift !mxE (negPf ne_ij) mulr0n.
- rewrite diagE; apply/andP; split.
    by rewrite mulr_ge0 ?divr_ge0 ?ler0n // ltW.
  rewrite -[X in _ <= X]mul1r ler_pM2r //.
  have [->|n_gt0] := posnP nbf.-1; first by rewrite invr0 mulr0 ler01.
  by rewrite ler_pdivrMr ?ltr0n // mul1r ler_nat.
- rewrite !diagE ltr_pM2r // ltr_pM2r ?ltr_nat // invr_gt0 ltr0n.
  exact: leq_ltn_trans (leq0n i) (leq_trans lt_ij (le_i j)).
- rewrite diagE; split=> [->|-> n_gt1]; rewrite ?mul0r // divff ?mul1r //.
  by rewrite pnatr_eq0 -lt0n -subn1 subn_gt0.
Qed.

(** Property X20.  [Dold] is only rebound by the damping block: without
    damping, or from the tenth pass on, it keeps its value through every
    later pass. *)
Theorem dold_frozen (options : hf_options R) (env : scf_env R nbf)
    (v : scf_vars R nbf) (k : nat) :
  ~~ damping options || (10 <= iteration v)%N ->
  Dold (iter k (body options env) v) = Dold v.
Proof.
move=> frozen; elim: k => [|k IH] //=.
rewrite scf_bodyE /= /damp_density -IH.
case: ifP => // damp_on; rewrite iteration_iter ltnNge.
move: frozen; rewrite damp_on /= => le10.
by rewrite (leq_trans le10 (leq_addr _ _)).
Qed.

(** Property X21.  When the rounded orbital energies are pairwise distinct
    and the basis is not empty, the statements after the loop print no
    degeneracy warning and return the energy of the last pass (with [C],
    [eps] and [G] when the auxiliary data is asked for). *)
Theorem no_warning_when_distinct (aux : bool) (env : scf_env R nbf)
    (v : scf_vars R nbf) (C : 'M[R]_nbf) (eps : 'rV[R]_nbf) :
  C_eps v = Some (C, eps) -> (0 < nbf)%N ->
  uniq [seq round6 (eps 0 j) | j <- enum 'I_nbf] ->
  hf_finish round6 aux env v
  = Ok (HfOutcome (iteration v) false
          (if aux then EnergyAux (E_scf v) C eps (env_G env)
           else Energy nbf (E_scf v))).
Proof.
rewrite /hf_finish => -> nbf_gt0 /undup_id-> /=.
by rewrite eqn0Ngt nbf_gt0 /= subnn mul0r ltNge divr_ge0 ?ler0n.
Qed.

End SolverMore.

Section Float64Exit.

Variable R : rcfType.
Variable arrays : Type.
Variable pass : nat -> arrays -> f64 R * f64 R * arrays.
Variable c : R.
Variable maxit : int.


End Float64Exit.

(** ** The further properties on the worked examples *)

Section DemoMore.

Local Notation Q := algR.

(** Property X9 at work on the two atoms of the example. *)
Lemma nuclear_repulsion_sum_witness :
  (size demo_charges <= size demo_rows)%N
  /\ nuclear_repulsion demo_rows demo_charges
     = Ok (\sum_(i <- iota 0 (size demo_charges)) \sum_(j <- iota 0 i)
             (nth 0 demo_charges i)%:~R * (nth 0 demo_charges j)%:~R
             / norm_diff (nth [::] demo_rows i) (nth [::] demo_rows j)).
Proof.
split; first by [].
exact: (@nuclear_repulsion_sum Q demo_rows demo_charges isT).
Defined.

(** Property X10 at work: the two atoms moved by [(1, 1, 1)]. *)
Lemma nuclear_repulsion_translation_witness :
  let t : seq Q := [:: 1; 1; 1] in
  all (fun row => size row == size t) demo_rows
  /\ nuclear_repulsion (translate t demo_rows) demo_charges
     = nuclear_repulsion demo_rows demo_charges.
Proof.
move=> t; split; first by [].
exact: (@nuclear_repulsion_translation Q t demo_rows demo_charges isT).
Defined.

(** Property X11 at work on the overlap matrix of the example. *)
Lemma symmetric_orthogonalization_symmetric_witness :
  exists A,
    [/\ symmetric_orthogonalization eigh_diagonal demo_S = Ok A, A^T = A
      & forall i j,
          A i j = \sum_(k | above_cutoff (eigh_diagonal demo_S).1 k)
                    (eigh_diagonal demo_S).2 i k
                    * (1 / Num.sqrt ((eigh_diagonal demo_S).1 0 k))
                    * (eigh_diagonal demo_S).2 j k].
Proof.
exact: (@symmetric_orthogonalization_symmetric Q 2 eigh_diagonal demo_S isT).
Defined.

Lemma eigh_diagonal_demo_diag :
  eigh_diagonal demo_diag = (rv2 1 4%:R, 1%:M).
Proof.
rewrite /eigh_diagonal; congr (_, _); apply/rowP=> j; rewrite !mxE.
by case: j => [[|[|?]] ?].
Qed.

Lemma demo_diag_factor :
  demo_diag = 1%:M *m diag_mx (rv2 1 4%:R) *m (1%:M)^T.
Proof.
rewrite trmx1 mulmx1 mul1mx; apply/matrixP=> i j; rewrite !mxE.
by case: i => [[|[|?]] ?] //=; case: j => [[|[|?]] ?].
Qed.

Lemma demo_diag_above (i : 'I_2) : above_cutoff (rv2 1 (4%:R : Q)) i.
Proof.
rewrite /above_cutoff !big_ord_recl big_ord0 !mxE /=.
have le14 : 1 <= 4%:R :> Q by rewrite ler1n.
rewrite normr1 normr_nat (max_l (ler0n _ _)) (max_r le14).
have small : 10%:R ^- 12 * 4%:R < 1 :> Q.
  rewrite mulrC ltr_pdivrMr ?exprn_gt0 ?ltr0n // mul1r.
  apply: (@lt_le_trans _ _ (10%:R ^+ 1)); first by rewrite expr1 ltr_nat.
  by rewrite ler_eXn2l // ltr1n.
case: i => [[|[|?]] ?] //=; rewrite ?normr1 ?normr_nat //.
by rewrite (lt_trans small) // ltr1n.
Qed.

(** Property X12 at work on the diagonal overlap matrix [diag(1, 4)]. *)
Lemma symmetric_orthogonalization_spec_witness :
  exists A,
    [/\ symmetric_orthogonalization eigh_diagonal demo_diag = Ok A,
        A *m demo_diag *m A = 1%:M & A *m A *m demo_diag = 1%:M].
Proof.
apply: (@symmetric_orthogonalization_spec Q 2 eigh_diagonal demo_diag isT).
- by rewrite eigh_diagonal_demo_diag /= trmx1 mulmx1.
- by rewrite eigh_diagonal_demo_diag /=; apply: demo_diag_factor.
- rewrite eigh_diagonal_demo_diag /= => i; rewrite !mxE.
  by case: i => [[|[|?]] ?] //=; rewrite ?ltr01 ?ltr0n.
- by rewrite eigh_diagonal_demo_diag /=; apply: demo_diag_above.
Defined.

(** Property X14 at work on the first pass of the example. *)
Lemma first_pass_core_guess_witness :
  let body := scf_body eigh_diagonal (demo_options 100) demo_env in
  let Fp := (env_A demo_env)^T *m (env_H demo_env *m env_A demo_env)
            + env_shift demo_env in
  [/\ build_fock demo_env (damp_density (demo_options 100) demo_v0).1
      = env_H demo_env,
      E_scf (body demo_v0) = 0 /\ E_old (body demo_v0) = 1,
      dRMS (body demo_v0) = 1
    & C_eps (body demo_v0)
      = Some (env_A demo_env *m (eigh_diagonal Fp).2, (eigh_diagonal Fp).1)].
Proof.
exact: (@first_pass_core_guess Q 2 cholesky2 invmx eigh_diagonal demo_integrals
          demo_geometry "sto-3g" "geom.xyz" demo_charges 0 (demo_options 100)
          0 demo_env demo_v0 (hf_setup_demo 100)).
Defined.

(** Property X15 at work on the call of the example. *)
Lemma outcome_after_setup_witness :
  exists o,
    [/\ Ok (HfOutcome 3 false (Energy 2 (- 4%:R))) = Ok o,
        (0 < printed_iterations o)%N
      & hf_energy (returned o)
        = E_scf (iter (printed_iterations o)
                   (scf_body eigh_diagonal (demo_options 100) demo_env)
                   demo_v0)].
Proof.
exact: (@outcome_after_setup Q 2 cholesky2 invmx eigh_diagonal id
          demo_integrals demo_geometry "sto-3g" "geom.xyz" demo_charges 0
          (demo_options 100) 0 false None demo_env demo_v0 4 _
          (hf_setup_demo 100) demo_hf_converges).
Defined.

Lemma scf_loopS (R : rcfType) (nbf : nat)
    (linalg_eigh : 'M[R]_nbf -> 'rV[R]_nbf * 'M[R]_nbf)
    (options : hf_options R) (env : scf_env R nbf) (fuel : nat)
    (v : scf_vars R nbf) :
  scf_loop linalg_eigh options env fuel.+1 v =
    if converged env v then Some v
    else if (iteration (scf_body linalg_eigh options env v))%:Z
            == maxit options
         then Some (scf_body linalg_eigh options env v)
         else scf_loop linalg_eigh options env fuel
                (scf_body linalg_eigh options env v).
Proof. by rewrite /= loop_testE; case: (converged env v). Qed.

(** The loop of the example under a cap of two passes, and under no cap. *)
Lemma scf_loop_demo2 :
  scf_loop eigh_diagonal (demo_options 2) demo_env 3 demo_v0 = Some demo_v2.
Proof.
rewrite scf_loopS (negPf not_converged0) pass1_demo -[_ == maxit _]/false.
by rewrite scf_loopS (negPf not_converged1) pass2_demo.
Qed.

Lemma scf_loop_demo0 :
  scf_loop eigh_diagonal (demo_options 0) demo_env 4 demo_v0 = Some demo_v3.
Proof.
rewrite scf_loopS (negPf not_converged0) pass1_demo -[_ == maxit _]/false.
rewrite scf_loopS (negPf not_converged1) pass2_demo -[_ == maxit _]/false.
rewrite scf_loopS (negPf not_converged2) pass3_demo -[_ == maxit _]/false.
by rewrite scf_loopS converged3.
Qed.

(** Property X16 at work: under [maxit = 2] the example stops after two
    passes, on the cap. *)
Lemma three_passes_before_convergence_witness :
  [/\ scf_loop eigh_diagonal (demo_options 2) demo_env 3 demo_v0
      = Some demo_v2,
      (iteration demo_v2 < 3)%N
    & (0 < iteration demo_v2)%N
      /\ (iteration demo_v2)%:Z = maxit (demo_options 2)].
Proof.
split; [exact: scf_loop_demo2 | by [] | ].
exact: (@three_passes_before_convergence Q 2 cholesky2 invmx eigh_diagonal
          demo_integrals demo_geometry "sto-3g" "geom.xyz" demo_charges 0
          (demo_options 2) 0 None demo_env demo_v0 3 demo_v2
          (hf_setup_demo 2) scf_loop_demo2 isT).
Defined.


Lemma demo_gram : demo_A^T *m demo_S *m demo_A = 1%:M.
Proof.
rewrite /demo_A /demo_S mx2_tr !mx2_mul mx2_one.
by apply: mx2_eq; ring.
Qed.


(** Property X20 at work: the example runs without damping. *)
Lemma dold_frozen_witness :
  Dold (iter 3 (scf_body eigh_diagonal (demo_options 100) demo_env) demo_v0)
  = Dold demo_v0.
Proof.
exact: (@dold_frozen Q 2 eigh_diagonal (demo_options 100) demo_env demo_v0 3
          isT).
Defined.

(** Property X21 at work on the orbital energies [-2] and [-1] of the
    example. *)
Lemma no_warning_when_distinct_witness :
  uniq [seq id ((rv2 (- 2%:R) (- 1) : 'rV[Q]_2) 0 j) | j <- enum 'I_2]
  /\ hf_finish id false demo_env demo_v3
     = Ok (HfOutcome 3 false (Energy 2 (- 4%:R))).
Proof.
have distinct :
  uniq [seq id ((rv2 (- 2%:R) (- 1) : 'rV[Q]_2) 0 j) | j <- enum 'I_2].
  rewrite !enum_ordSl enum_ord0 /= !mxE /= inE eqr_opp (eqr_nat _ 2 1).
  by [].
split=> //.
exact: (@no_warning_when_distinct Q 2 id false demo_env demo_v3 demo_A
          (rv2 (- 2%:R) (- 1)) erefl isT distinct).
Defined.

End DemoMore.
